(** * dynamo-record: the request facade of [src/dynamoRecord.js]

    A shallow embedding of the [DynamoRecord] class: JavaScript values and
    objects, the five lodash helpers the file imports, [assignConfig], the
    seven public operations and the promise each of them returns.  The
    theorems at the end relate the embedding to the prose specification. *)

From Stdlib Require Import ZArith Ascii String.
From stdpp Require Import base option list strings pretty gmap.

Open Scope string_scope.

(** ** JavaScript values *)

(** The values the facade handles.  Numbers are the integer-valued ones
    (the code never computes with a number, it only tests [length] against
    2 and against lodash's array-like bound); strings are ASCII text. *)
#[warnings="-register-all"]
Inductive value : Type :=
  | VUndefined
  | VNull
  | VBool (b : bool)
  | VNum (n : Z)
  | VStr (s : string)
  | VArr (elems : list value)
  | VObj (props : list (string * value)).

(** The own enumerable properties of a plain object, in the order in which
    [Object.keys] lists them. *)
Abbreviation obj := (list (string * value)).

(** ToBoolean, as used by [if (config)], [if (primaryKey)], [if (error)]. *)
Definition truthy (v : value) : bool :=
  match v with
  | VUndefined | VNull => false
  | VBool b => b
  | VNum n => negb (n =? 0)%Z
  | VStr s => negb (String.eqb s "")
  | VArr _ | VObj _ => true
  end.

(** ** Objects *)

Module Obj.

(** Own-property lookup; [None] when the property is absent. *)
Fixpoint get (k : string) (o : obj) : option value :=
  match o with
  | [] => None
  | (k', v) :: o' => if decide (k = k') then Some v else get k o'
  end.

(** The expression [o[k]]: an absent property reads as [undefined]. *)
Definition read (k : string) (o : obj) : value := default VUndefined (get k o).

Definition keys (o : obj) : list string := o.*1.

Definition digit (c : ascii) : option N :=
  let n := N_of_ascii c in
  if ((48 <=? n) && (n <=? 57))%N then Some (n - 48)%N else None.

Fixpoint digits (s : string) (acc : N) : option N :=
  match s with
  | "" => Some acc
  | String c s' => d ← digit c; digits s' (acc * 10 + d)%N
  end.

(** A property key is an array index when it is the canonical decimal
    form of an integer below 2^32 - 1. *)
Definition array_index (s : string) : option N :=
  match s with
  | "" => None
  | "0" => Some 0%N
  | String "0" _ => None
  | _ => n ← digits s 0; if (n <? 4294967295)%N then Some n else None
  end.

(** Does a new key [k] come before the existing key [k'] in property
    order?  Array indices come first, ascending; the other keys follow in
    creation order. *)
Definition before (k k' : string) : bool :=
  match array_index k, array_index k' with
  | Some i, Some j => (i <? j)%N
  | Some _, None => true
  | None, _ => false
  end.

Fixpoint replace (k : string) (v : value) (o : obj) : obj :=
  match o with
  | [] => []
  | (k', v') :: o' =>
      if decide (k = k') then (k, v) :: o' else (k', v') :: replace k v o'
  end.

Fixpoint add (k : string) (v : value) (o : obj) : obj :=
  match o with
  | [] => [(k, v)]
  | (k', v') :: o' =>
      if before k k' then (k, v) :: (k', v') :: o' else (k', v') :: add k v o'
  end.

(** The assignment [o[k] = v] for a key other than [__proto__]: an existing
    property keeps its place, a new one is created. *)
Definition set (k : string) (v : value) (o : obj) : obj :=
  match get k o with
  | Some _ => replace k v o
  | None => add k v o
  end.

(** The assignment [o[k] = v] for any key, on a plain object.  The key
    [__proto__] reaches the setter the object inherits from
    [Object.prototype]: it changes the prototype at most and creates no
    property, so the own properties stay as they are.  The code assigns
    under a key it does not choose in [assignConfig] only; elsewhere the
    key is a fixed name or starts with [#] or [:]. *)
Definition assign (k : string) (v : value) (o : obj) : obj :=
  if decide (k = "__proto__") then o else set k v o.

(** [delete o[k]]. *)
Fixpoint delete (k : string) (o : obj) : obj :=
  match o with
  | [] => []
  | (k', v') :: o' =>
      if decide (k = k') then delete k o' else (k', v') :: delete k o'
  end.

(** The assignment [o[f][k] = v] on the object held by property [f].  The
    code only writes this where [f] was initialised to an object by the
    literal a few lines above. *)
Definition set_in (f k : string) (v : value) (o : obj) : obj :=
  match get f o with
  | Some (VObj m) => set f (VObj (set k v m)) o
  | _ => o
  end.

End Obj.

(** ** The lodash helpers: [forEach], [upperFirst], [join], [isArray], [size] *)

Module Lodash.

Definition MAX_SAFE_INTEGER : Z := 9007199254740991.

Definition isArray (v : value) : bool :=
  match v with VArr _ => true | _ => false end.

(** The property [value.length] of a value other than null and undefined. *)
Definition length_of (v : value) : value :=
  match v with
  | VArr l => VNum (Z.of_nat (length l))
  | VStr s => VNum (Z.of_nat (String.length s))
  | VObj o => Obj.read "length" o
  | _ => VUndefined
  end.

(** [typeof value == 'number' && value > -1 && value % 1 == 0 &&
    value <= MAX_SAFE_INTEGER]. *)
Definition isLength (v : value) : bool :=
  match v with
  | VNum n => (0 <=? n)%Z && (n <=? MAX_SAFE_INTEGER)%Z
  | _ => false
  end.

(** [value != null && isLength(value.length) && !isFunction(value)].  A
    plain object with a [length] property that holds a valid length is
    array-like. *)
Definition isArrayLike (v : value) : bool :=
  match v with
  | VUndefined | VNull => false
  | _ => isLength (length_of v)
  end.

(** The key an iteratee receives: a property name, or a number when the
    collection is walked by index. *)
Inductive key : Type :=
  | Name (s : string)
  | Index (i : nat).

(** ToString of a key, as in ["#" + key] and in a template literal. *)
Definition key_string (k : key) : string :=
  match k with
  | Name s => s
  | Index i => pretty i
  end.

(** The key as a value, as in [names["#" + key] = key]. *)
Definition key_value (k : key) : value :=
  match k with
  | Name s => VStr s
  | Index i => VNum (Z.of_nat i)
  end.

Definition by_index (at_ : nat → value) (n : nat) : list (value * key) :=
  (λ i, (at_ i, Index i)) <$> seq 0 n.

Definition chars (s : string) : list value :=
  (λ c, VStr (String c "")) <$> list_ascii_of_string s.

(** The (value, key) pairs that [forEach(collection, iteratee)] hands to
    its iteratee, in order: nothing for null and undefined; the elements
    of an array; for anything array-like the indices [0 .. length - 1]
    with [collection[index]]; otherwise the own enumerable properties.
    lodash documents the third case: objects with a [length] property are
    iterated like arrays, and [forOwn] is the function that does not. *)
Definition visits (collection : value) : list (value * key) :=
  match collection with
  | VUndefined | VNull => []
  | VArr l => by_index (λ i, default VUndefined (l !! i)) (length l)
  | VStr s => by_index (λ i, default VUndefined (chars s !! i)) (String.length s)
  | VObj o =>
      if isArrayLike (VObj o)
      then match Obj.read "length" o with
           | VNum n => by_index (λ i, Obj.read (pretty i) o) (Z.to_nat n)
           | _ => []
           end
      else (λ p, (p.2, Name p.1)) <$> o
  | VBool _ | VNum _ => []
  end.

(** [forEach(collection, iteratee)] for an iteratee that updates the
    variables it closes over (the state [S]) and returns nothing, so the
    walk is never cut short. *)
Definition forEach {S : Type} (collection : value)
    (iteratee : value → key → S → S) (s : S) : S :=
  fold_left (λ acc p, iteratee p.1 p.2 acc) (visits collection) s.

Definition toUpperCase (c : ascii) : ascii :=
  let n := N_of_ascii c in
  if ((97 <=? n) && (n <=? 122))%N then ascii_of_N (n - 32) else c.

(** [upperFirst(string)] on the string form of the key, for a key whose
    first character is ASCII: the letters [a] to [z] are capitalised and
    every other ASCII character is left as it is.  lodash also capitalises
    letters beyond ASCII, which the strings of this model do not have; the
    theorems about arbitrary override keys assume an ASCII first
    character ([ascii_initial]). *)
Definition upperFirst (s : string) : string :=
  match s with
  | "" => ""
  | String c s' => String (toUpperCase c) s'
  end.

(** [join(array, separator)] on an array of strings. *)
Definition join (array : list string) (separator : string) : string :=
  String.concat separator array.

(** [size(collection)]: 0 for null and undefined, the length of anything
    array-like, otherwise the number of own enumerable properties. *)
Definition size (collection : value) : Z :=
  match collection with
  | VUndefined | VNull => 0
  | VArr l => Z.of_nat (length l)
  | VStr s => Z.of_nat (String.length s)
  | VObj o =>
      if isArrayLike (VObj o)
      then match Obj.read "length" o with VNum n => n | _ => 0 end
      else Z.of_nat (length (Obj.keys o))
  | VBool _ | VNum _ => 0
  end.

End Lodash.

Import Lodash.

(** [array.forEach((v, k) => ...)], the native method, on an array. *)
Definition Array_forEach {S : Type} (array : list value)
    (callback : value → nat → S → S) (s : S) : S :=
  fold_left (λ acc p, callback p.2 p.1 acc) (imap pair array) s.

(** Property access [v.k] on a value that passed a truthiness test. *)
Definition member (v : value) (k : string) : value :=
  match v with
  | VObj o => Obj.read k o
  | _ => VUndefined
  end.

(** ** [assignConfig] (lines 7-15) *)

(** [{ ...params }] is a new object with the properties of [params] in the
    same order; as a value it is [params].  The module [Ref] below has the
    copy as a new reference. *)
Definition assignConfig (params : obj) (config : value) : obj :=
  let paramsToReturn := params in
  forEach config
    (λ value key paramsToReturn,
       Obj.assign (upperFirst (key_string key)) value paramsToReturn)
    paramsToReturn.

(** ** The store client *)

Module DocumentClient.

(** The request methods of the client that the facade calls. *)
Inductive method : Set := get | query | scan | put | batchWrite | update | delete.

(** The client keeps the options object it was constructed with. *)
Record t : Type := new { options : obj }.

Record request : Type := Request { called : method; sent_params : obj }.

(** The service configuration takes its region from the option named
    [region]. *)
Definition region (c : t) : option value := Obj.get "region" (options c).

End DocumentClient.

(** ** The class [DynamoRecord] (lines 17-28) *)

Record DynamoRecord : Type := {
  tableName : string;
  dynamoClient : DocumentClient.t
}.

Definition constructor (tableName tableRegion : string) : DynamoRecord :=
  {| tableName := tableName;
     dynamoClient := DocumentClient.new [("tableRegion", VStr tableRegion)] |}.

(** ** Promises *)

Inductive promise : Type :=
  | Resolved (data : value)
  | Rejected (error : value).

(** The completion callback every operation passes to the client:
    [(error, data) => { if (error) reject(error); else resolve(data); }]. *)
Definition callback (error data : value) : promise :=
  if truthy error then Rejected error else Resolved data.

(** ** Building the parameters of [where] (lines 69-137) *)

Definition NAMES := "ExpressionAttributeNames".
Definition VALUES := "ExpressionAttributeValues".
Definition KEY_CONDITION := "KeyConditionExpression".
Definition FILTER := "FilterExpression".

(** Lines 86-92 and 114-120: the two ends of a range. *)
Definition bind_range (key : key) (range : list value) (params : obj) : obj :=
  Array_forEach range
    (λ v k params,
       if decide (k = 0)
       then Obj.set_in VALUES (":" +:+ key_string key +:+ "Start") v params
       else if decide (k = 1)
       then Obj.set_in VALUES (":" +:+ key_string key +:+ "End") v params
       else params)
    params.

(** [isArray(value) && value.length === 2] *)
Definition is_range (v : value) : bool :=
  isArray v && match length_of v with VNum 2 => true | _ => false end.

Definition elements (v : value) : list value :=
  match v with VArr l => l | _ => [] end.

(** Lines 81-97: the iteratee over the primary key; its state is [params]
    and [primaryKeyArray]. *)
Definition key_iteratee (value : value) (key : key)
    (st : obj * list string) : obj * list string :=
  let '(params, primaryKeyArray) := st in
  let k := key_string key in
  let params := Obj.set_in NAMES ("#" +:+ k) (key_value key) params in
  if is_range value then
    let primaryKeyArray :=
      (primaryKeyArray ++
         ["#" +:+ k +:+ " BETWEEN :" +:+ k +:+ "Start AND :" +:+ k +:+ "End"])%list in
    (bind_range key (elements value) params, primaryKeyArray)
  else
    let primaryKeyArray :=
      (primaryKeyArray ++ ["#" +:+ k +:+ " = :" +:+ k])%list in
    (Obj.set_in VALUES (":" +:+ k) value params, primaryKeyArray).

(** Lines 110-124: the iteratee over the filter's keys. *)
Definition filter_iteratee (value : value) (key : key) (params : obj) : obj :=
  let k := key_string key in
  let params := Obj.set_in NAMES ("#" +:+ k) (key_value key) params in
  if is_range value then bind_range key (elements value) params
  else Obj.set_in VALUES (":" +:+ k) value params.

(** Lines 69-101: the literal and the key condition. *)
Definition where_key (tableName : string) (primaryKey : value) : obj :=
  let params :=
    [("TableName", VStr tableName);
     (NAMES, VObj []);
     (VALUES, VObj []);
     ("ReturnConsumedCapacity", VStr "TOTAL")] in
  if truthy primaryKey then
    let '(params, primaryKeyArray) :=
      forEach primaryKey key_iteratee (params, []) in
    Obj.set KEY_CONDITION (VStr (join primaryKeyArray " AND ")) params
  else params.

(** Lines 103-125: the filter. *)
Definition where_filter (filterExpression : value) (params : obj) : obj :=
  if truthy filterExpression
     && truthy (member filterExpression "condition")
     && truthy (member filterExpression "keys")
  then
    let params :=
      Obj.set FILTER (member filterExpression "condition") params in
    forEach (member filterExpression "keys") filter_iteratee params
  else params.

(** Lines 127-133: the empty placeholder maps are deleted. *)
Definition pruneEmptyPlaceholders (params : obj) : obj :=
  let params :=
    if (size (Obj.read NAMES params) =? 0)%Z
    then Obj.delete NAMES params else params in
  if (size (Obj.read VALUES params) =? 0)%Z
  then Obj.delete VALUES params else params.

(** The parameters [where] has built when it reaches line 127. *)
Definition where_generated (tableName : string)
    (primaryKey filterExpression : value) : obj :=
  where_filter filterExpression (where_key tableName primaryKey).

(** The parameters [where] hands to the client (lines 69-137). *)
Definition where_params (tableName : string)
    (primaryKey filterExpression config : value) : obj :=
  let params := where_generated tableName primaryKey filterExpression in
  let params := pruneEmptyPlaceholders params in
  if truthy config then assignConfig params config else params.

(** ** Building the parameters of the other operations *)

(** Lines 37-46. *)
Definition find_params (tableName : string) (primaryKey config : value) : obj :=
  let params :=
    [("TableName", VStr tableName);
     ("Key", primaryKey);
     ("ConsistentRead", VBool true);
     ("ReturnConsumedCapacity", VStr "TOTAL")] in
  if truthy config then assignConfig params config else params.

(** Lines 166-173. *)
Definition getAll_params (tableName : string) (config : value) : obj :=
  let params :=
    [("TableName", VStr tableName);
     ("ReturnConsumedCapacity", VStr "TOTAL")] in
  if truthy config then assignConfig params config else params.

(** Lines 193-200. *)
Definition create_params (tableName : string) (createData config : value) : obj :=
  let params := [("TableName", VStr tableName); ("Item", createData)] in
  if truthy config then assignConfig params config else params.

(** Lines 219-229. *)
Definition batchCreate_params (tableName : string)
    (createData : list value) (config : value) : obj :=
  let params :=
    [("RequestItems",
      VObj [(tableName,
             VArr ((λ item, VObj [("PutRequest", VObj [("Item", item)])])
                     <$> createData))])] in
  if truthy config then assignConfig params config else params.

(** Lines 263-267: the iteratee over the update data; its state is [params]
    and [updateExpression]. *)
Definition update_iteratee (value : value) (key : key)
    (st : obj * list string) : obj * list string :=
  let '(params, updateExpression) := st in
  let k := key_string key in
  let updateExpression :=
    (updateExpression ++ ["#" +:+ k +:+ " = :" +:+ k])%list in
  let params := Obj.set_in NAMES ("#" +:+ k) (key_value key) params in
  let params := Obj.set_in VALUES (":" +:+ k) value params in
  (params, updateExpression).

(** Lines 249-275. *)
Definition update_params (tableName : string)
    (primaryKey updateData config : value) : obj :=
  let params :=
    [("TableName", VStr tableName);
     ("Key", primaryKey);
     (NAMES, VObj []);
     (VALUES, VObj []);
     ("ReturnValues", VStr "ALL_NEW")] in
  let params :=
    if truthy updateData then
      let '(params, updateExpression) :=
        forEach updateData update_iteratee (params, []) in
      Obj.set "UpdateExpression"
        (VStr ("set " +:+ join updateExpression ", ")) params
    else params in
  if truthy config then assignConfig params config else params.

(** Lines 289-296. *)
Definition destroy_params (tableName : string) (primaryKey config : value) : obj :=
  let params := [("TableName", VStr tableName); ("Key", primaryKey)] in
  if truthy config then assignConfig params config else params.

(** ** The seven operations *)

(** What an operation can read and change: the handle it is called on and
    the requests that have gone out to the store. *)
Record world : Type := World {
  this : DynamoRecord;
  sent : list DocumentClient.request
}.

Definition M (A : Type) : Type := world → A * world.

#[export] Instance M_ret : MRet M := λ A a w, (a, w).
#[export] Instance M_bind : MBind M := λ A B f m w, let '(a, w') := m w in f a w'.

Definition this_tableName : M string := λ w, (tableName (this w), w).

Section Facade.

(** The store behind the client: the [(error, data)] with which it
    completes a request, given the requests that went out before. *)
Variable store :
  list DocumentClient.request → DocumentClient.request → value * value.

(** [this.dynamoClient.m(params, (error, data) => ...)] inside
    [new Promise((resolve, reject) => ...)]: the request goes out, the
    client completes it once, the callback settles the promise. *)
Definition invoke (m : DocumentClient.method) (params : obj) : M promise :=
  λ w,
    let req := DocumentClient.Request m params in
    let '(error, data) := store (sent w) req in
    (callback error data, World (this w) (sent w ++ [req])).

Definition find (primaryKey config : value) : M promise :=
  tableName ← this_tableName;
  invoke DocumentClient.get (find_params tableName primaryKey config).

Definition where_ (primaryKey filterExpression config : value) : M promise :=
  tableName ← this_tableName;
  let params := where_params tableName primaryKey filterExpression config in
  if truthy primaryKey
  then invoke DocumentClient.query params
  else invoke DocumentClient.scan params.

Definition getAll (config : value) : M promise :=
  tableName ← this_tableName;
  invoke DocumentClient.scan (getAll_params tableName config).

Definition create (createData config : value) : M promise :=
  tableName ← this_tableName;
  invoke DocumentClient.put (create_params tableName createData config).

Definition batchCreate (createData : list value) (config : value) : M promise :=
  tableName ← this_tableName;
  invoke DocumentClient.batchWrite (batchCreate_params tableName createData config).

Definition update (primaryKey updateData config : value) : M promise :=
  tableName ← this_tableName;
  invoke DocumentClient.update (update_params tableName primaryKey updateData config).

Definition destroy (primaryKey config : value) : M promise :=
  tableName ← this_tableName;
  invoke DocumentClient.delete (destroy_params tableName primaryKey config).

(** A call of one of the public methods; an argument left out is
    [VUndefined]. *)
Inductive call : Type :=
  | Find (primaryKey config : value)
  | Where (primaryKey filterExpression config : value)
  | GetAll (config : value)
  | Create (createData config : value)
  | BatchCreate (createData : list value) (config : value)
  | Update (primaryKey updateData config : value)
  | Destroy (primaryKey config : value).

Definition run (c : call) : M promise :=
  match c with
  | Find k cfg => find k cfg
  | Where k f cfg => where_ k f cfg
  | GetAll cfg => getAll cfg
  | Create d cfg => create d cfg
  | BatchCreate ds cfg => batchCreate ds cfg
  | Update k d cfg => update k d cfg
  | Destroy k cfg => destroy k cfg
  end.

End Facade.

(** The one request a call sends: the method of the client it goes to
    (the table of section 4.2 of the specification) and its parameters. *)
Definition request_of (tableName : string) (c : call) : DocumentClient.request :=
  match c with
  | Find k cfg => DocumentClient.Request DocumentClient.get (find_params tableName k cfg)
  | Where k f cfg =>
      DocumentClient.Request
        (if truthy k then DocumentClient.query else DocumentClient.scan)
        (where_params tableName k f cfg)
  | GetAll cfg => DocumentClient.Request DocumentClient.scan (getAll_params tableName cfg)
  | Create d cfg => DocumentClient.Request DocumentClient.put (create_params tableName d cfg)
  | BatchCreate ds cfg =>
      DocumentClient.Request DocumentClient.batchWrite (batchCreate_params tableName ds cfg)
  | Update k d cfg =>
      DocumentClient.Request DocumentClient.update (update_params tableName k d cfg)
  | Destroy k cfg =>
      DocumentClient.Request DocumentClient.delete (destroy_params tableName k cfg)
  end.

(** The override configuration a call was given, and the same call without
    one. *)
Definition config_of (c : call) : value :=
  match c with
  | Find _ cfg | Where _ _ cfg | GetAll cfg | Create _ cfg
  | BatchCreate _ cfg | Update _ _ cfg | Destroy _ cfg => cfg
  end.

Definition without_config (c : call) : call :=
  match c with
  | Find k _ => Find k VUndefined
  | Where k f _ => Where k f VUndefined
  | GetAll _ => GetAll VUndefined
  | Create d _ => Create d VUndefined
  | BatchCreate ds _ => BatchCreate ds VUndefined
  | Update k d _ => Update k d VUndefined
  | Destroy k _ => Destroy k VUndefined
  end.

(** Calls made one after the other on the same handle, each completed by
    the store before the next is made. *)
Definition run_all
    (store : list DocumentClient.request → DocumentClient.request → value * value)
    (calls : list call) (w : world) : world :=
  fold_left (λ w c, (run store c w).2) calls w.

(** The put request [batchCreate] makes of one item (line 221). *)
Definition put_request (item : value) : value :=
  VObj [("PutRequest", VObj [("Item", item)])].

(** ** The expression builder as the specification words it

    The specification describes the builder by what each entry emits and
    binds.  These definitions follow its sentences; the properties below
    relate them to the iteratees of the source. *)

(** Binding placeholders one after the other in a shared namespace. *)
Definition bind_all (bindings : list (string * value)) (m : obj) : obj :=
  fold_left (λ m b, Obj.set b.1 b.2 m) bindings m.

(** The value that the last binding of [k] in a list gives it. *)
Fixpoint last_binding (k : string) (bindings : list (string * value)) : option value :=
  match bindings with
  | [] => None
  | (k', v) :: rest =>
      match last_binding k rest with
      | Some v' => Some v'
      | None => if decide (k = k') then Some v else None
      end
  end.

(** The clause an entry emits in a key condition. *)
Definition clause_of (p : value * key) : string :=
  let name := key_string p.2 in
  match p.1 with
  | VArr [_; _] =>
      "#" +:+ name +:+ " BETWEEN :" +:+ name +:+ "Start AND :" +:+ name +:+ "End"
  | _ => "#" +:+ name +:+ " = :" +:+ name
  end.

(** The assignment an entry emits in an update expression. *)
Definition assignment_of (p : value * key) : string :=
  let name := key_string p.2 in "#" +:+ name +:+ " = :" +:+ name.

(** The name placeholder an entry binds. *)
Definition name_binding (p : value * key) : string * value :=
  ("#" +:+ key_string p.2, key_value p.2).

(** The value placeholders an entry of a key or filter specification binds. *)
Definition value_bindings (p : value * key) : list (string * value) :=
  let name := key_string p.2 in
  match p.1 with
  | VArr [start; end_] =>
      [(":" +:+ name +:+ "Start", start); (":" +:+ name +:+ "End", end_)]
  | v => [(":" +:+ name, v)]
  end.

(** The value placeholder an entry of an update specification binds. *)
Definition update_binding (p : value * key) : string * value :=
  (":" +:+ key_string p.2, p.1).

(** The entries of a plain object as [forEach] is meant to visit them. *)
Definition entries (o : obj) : list (value * key) := (λ p, (p.2, Name p.1)) <$> o.

(** What [where] walks over: the primary key when there is one, and the
    filter's keys when the filter has both a condition and keys. *)
Definition key_visits (primaryKey : value) : list (value * key) :=
  if truthy primaryKey then visits primaryKey else [].

Definition filter_applies (filterExpression : value) : bool :=
  truthy filterExpression
  && truthy (member filterExpression "condition")
  && truthy (member filterExpression "keys").

Definition filter_visits (filterExpression : value) : list (value * key) :=
  if filter_applies filterExpression
  then visits (member filterExpression "keys") else [].

(** The placeholder maps a call of [where] accumulates. *)
Definition where_names (primaryKey filterExpression : value) : obj :=
  bind_all (name_binding <$> (key_visits primaryKey ++ filter_visits filterExpression)%list) [].

Definition where_values (primaryKey filterExpression : value) : obj :=
  bind_all ((key_visits primaryKey ++ filter_visits filterExpression)%list ≫= value_bindings) [].

(** [params] carries the two placeholder maps [n] and [vs]. *)
Definition carries (n vs params : obj) : Prop :=
  Obj.get NAMES params = Some (VObj n) ∧ Obj.get VALUES params = Some (VObj vs).

(** The fields an override configuration assigns, in order: the
    capitalised keys with their values, without the key [__proto__], under
    which no field is created. *)
Definition overrides (config : value) : list (string * value) :=
  filter (λ b, b.1 ≠ "__proto__")
    ((λ p, (upperFirst (key_string p.2), p.1)) <$> visits config).

(** Is the first character of a key ASCII?  These are the keys on which
    [upperFirst] of this model is that of lodash. *)
Definition ascii_initial (s : string) : bool :=
  match s with
  | "" => true
  | String c _ => (N_of_ascii c <? 128)%N
  end.

(** Every key that [forEach] hands to the iteratee of [assignConfig] has an
    ASCII first character. *)
Definition ascii_overrides (config : value) : Prop :=
  Forall (λ p, ascii_initial (key_string p.2) = true) (visits config).

(** The value an override object gives a field: that of the last entry
    whose capitalised key is the field's name. *)
Fixpoint override_for (field : string) (config : obj) : option value :=
  match config with
  | [] => None
  | (k, v) :: rest =>
      match override_for field rest with
      | Some v' => Some v'
      | None => if decide (field = upperFirst k) then Some v else None
      end
  end.

(** ** [assignConfig] on references

    [params] names an object in a heap; [{ ...params }] allocates a copy and
    the iteratee assigns into the copy. *)
Module Ref.

Abbreviation heap := (gmap nat obj).

Definition alloc (o : obj) (h : heap) : nat * heap :=
  let r := fresh (dom h) in (r, <[r := o]> h).

Definition assign (r : nat) (k : string) (v : value) (h : heap) : heap :=
  alter (Obj.assign k v) r h.

Definition assignConfig (params : nat) (config : value) (h : heap)
    : option (nat * heap) :=
  o ← h !! params;
  let '(paramsToReturn, h) := alloc o h in
  let h :=
    forEach config
      (λ value key h, assign paramsToReturn (upperFirst (key_string key)) value h)
      h in
  Some (paramsToReturn, h).

End Ref.

(** * Properties *)

(** ** Objects: lookup after assignment and deletion *)

Section ObjFacts.
Implicit Types (k f : string) (v : value) (o : obj).

Lemma get_replace k k' v o :
  is_Some (Obj.get k o) →
  Obj.get k' (Obj.replace k v o) = if decide (k = k') then Some v else Obj.get k' o.
Proof.
  induction o as [|[k0 v0] o IH]; simpl.
  - by intros [? ?].
  - destruct (decide (k = k0)) as [->|Hne]; simpl.
    + intros _. by repeat case_decide; simplify_eq.
    + intros Hk. rewrite (IH Hk). by repeat case_decide; simplify_eq.
Qed.

Lemma get_add k k' v o :
  Obj.get k o = None →
  Obj.get k' (Obj.add k v o) = if decide (k = k') then Some v else Obj.get k' o.
Proof.
  induction o as [|[k0 v0] o IH]; simpl.
  - intros _. by repeat case_decide; simplify_eq.
  - destruct (decide (k = k0)) as [->|Hne]; [done|]. intros Hk.
    destruct (Obj.before k k0); simpl.
    + by repeat case_decide; simplify_eq.
    + rewrite (IH Hk). by repeat case_decide; simplify_eq.
Qed.

(** Reading after [o[k] = v]. *)
Lemma get_set k k' v o :
  Obj.get k' (Obj.set k v o) = if decide (k = k') then Some v else Obj.get k' o.
Proof.
  unfold Obj.set. destruct (Obj.get k o) eqn:Hk.
  - by apply get_replace.
  - by apply get_add.
Qed.

Lemma get_set_eq k v o : Obj.get k (Obj.set k v o) = Some v.
Proof. rewrite get_set. by rewrite decide_True. Qed.

Lemma get_set_ne k k' v o : k ≠ k' → Obj.get k' (Obj.set k v o) = Obj.get k' o.
Proof. intros. rewrite get_set. by rewrite decide_False. Qed.

(** Reading after [delete o[k]]. *)
Lemma get_delete k k' o :
  Obj.get k' (Obj.delete k o) = if decide (k = k') then None else Obj.get k' o.
Proof.
  induction o as [|[k0 v0] o IH]; simpl.
  - by case_decide.
  - destruct (decide (k = k0)) as [->|Hne]; simpl; rewrite IH;
      by repeat case_decide; simplify_eq.
Qed.

Lemma elem_of_keys k o : k ∈ Obj.keys o ↔ is_Some (Obj.get k o).
Proof.
  unfold Obj.keys. induction o as [|[k0 v0] o IH]; simpl.
  - rewrite elem_of_nil. split; [done|]. by intros [? ?].
  - rewrite elem_of_cons, IH. destruct (decide (k = k0)) as [->|Hne].
    + split; [by eexists|by left].
    + split; [by intros [?|?]|by right].
Qed.

Lemma keys_replace k v o : Obj.keys (Obj.replace k v o) = Obj.keys o.
Proof.
  unfold Obj.keys. induction o as [|[k0 v0] o IH]; simpl; [done|].
  case_decide; simplify_eq/=; [done|]. by rewrite IH.
Qed.

Lemma keys_add k v o : Obj.keys (Obj.add k v o) ≡ₚ k :: Obj.keys o.
Proof.
  unfold Obj.keys. induction o as [|[k0 v0] o IH]; simpl; [done|].
  destruct (Obj.before k k0); simpl; [done|].
  rewrite IH. apply Permutation_swap.
Qed.

(** An object never lists a key twice, whatever is assigned to it. *)
Lemma NoDup_keys_set k v o :
  NoDup (Obj.keys o) → NoDup (Obj.keys (Obj.set k v o)).
Proof.
  intros Ho. unfold Obj.set. destruct (Obj.get k o) eqn:Hk.
  - by rewrite keys_replace.
  - rewrite keys_add. apply NoDup_cons. split; [|done].
    rewrite elem_of_keys, Hk. by intros [? ?].
Qed.

Lemma set_not_nil k v o : Obj.set k v o ≠ [].
Proof.
  intros H. pose proof (get_set_eq k v o) as Hg. by rewrite H in Hg.
Qed.

End ObjFacts.

(** ** Bindings made in order *)

Section Bindings.
Implicit Types (k : string) (v : value) (m : obj) (bs : list (string * value)).

(** A placeholder reads as its last binding, or as it did before. *)
Lemma get_bind_all k bs m :
  Obj.get k (bind_all bs m) =
    match last_binding k bs with Some v => Some v | None => Obj.get k m end.
Proof.
  revert m. induction bs as [|[k0 v0] bs IH]; intros m; simpl; [done|].
  unfold bind_all in *. simpl. rewrite IH.
  destruct (last_binding k bs); [done|].
  rewrite get_set. by repeat case_decide; simplify_eq.
Qed.

Lemma last_binding_None k bs : last_binding k bs = None ↔ k ∉ bs.*1.
Proof.
  induction bs as [|[k0 v0] bs IH]; simpl.
  - split; [intros _; apply not_elem_of_nil|done].
  - rewrite not_elem_of_cons, <- IH.
    destruct (last_binding k bs).
    + split; [done|]. by intros [_ ?].
    + case_decide; [|by split].
      split; [done|]. by intros [? _].
Qed.

Lemma last_binding_app k bs1 bs2 :
  last_binding k (bs1 ++ bs2) =
    match last_binding k bs2 with Some v => Some v | None => last_binding k bs1 end.
Proof.
  induction bs1 as [|[k0 v0] bs1 IH]; simpl.
  - by destruct (last_binding k bs2).
  - rewrite IH. by destruct (last_binding k bs2).
Qed.

Lemma bind_all_app bs1 bs2 m :
  bind_all (bs1 ++ bs2) m = bind_all bs2 (bind_all bs1 m).
Proof. apply fold_left_app. Qed.

Lemma NoDup_keys_bind_all bs m :
  NoDup (Obj.keys m) → NoDup (Obj.keys (bind_all bs m)).
Proof.
  revert m. induction bs as [|[k0 v0] bs IH]; intros m Hm; [done|].
  apply IH. by apply NoDup_keys_set.
Qed.

Lemma elem_of_keys_bind_all k bs m :
  k ∈ Obj.keys (bind_all bs m) ↔ k ∈ bs.*1 ∨ k ∈ Obj.keys m.
Proof.
  rewrite (elem_of_keys k (bind_all bs m)), (elem_of_keys k m), get_bind_all.
  destruct (last_binding k bs) eqn:Hl.
  - split; [|by eexists]. intros _. left.
    destruct (decide (k ∈ bs.*1)) as [|Hn]; [done|].
    apply last_binding_None in Hn. congruence.
  - apply last_binding_None in Hl. split; [by right|by intros [?|?]].
Qed.

(** Nothing is bound exactly when there was nothing to bind. *)
Lemma bind_all_nil bs : bind_all bs [] = [] ↔ bs = [].
Proof.
  split; [|by intros ->].
  destruct bs as [|[k0 v0] bs _] using rev_ind; [done|].
  rewrite bind_all_app. simpl. intros H. by apply set_not_nil in H.
Qed.

Lemma filter_eq_absent (k : string) (l : list string) :
  k ∉ l → filter (k =.) l = [].
Proof.
  induction l as [|x l IH]; [done|].
  intros [? ?]%not_elem_of_cons. rewrite filter_cons, decide_False by done.
  by apply IH.
Qed.

(** A key that is listed without duplicates is listed once. *)
Lemma occurs_once (k : string) (l : list string) :
  NoDup l → k ∈ l → length (filter (k =.) l) = 1.
Proof.
  induction 1 as [|x l Hx Hl IH]; [by intros ?%elem_of_nil|].
  rewrite filter_cons. destruct (decide (k = x)) as [->|Hne].
  - intros _. by rewrite filter_eq_absent.
  - intros [?|Hin]%elem_of_cons; [done|]. by apply IH.
Qed.

End Bindings.

(** ** The iteratees bind what the specification says *)

Section Iteratees.
Implicit Types (k f : string) (v : value) (params n vs : obj) (p : value * key).

Lemma get_set_in_ne f g k v params :
  f ≠ g → Obj.get f (Obj.set_in g k v params) = Obj.get f params.
Proof.
  intros Hne. unfold Obj.set_in.
  destruct (Obj.get g params) as [[]|]; try done.
  by rewrite get_set_ne.
Qed.

Lemma get_set_in_eq g k v params m :
  Obj.get g params = Some (VObj m) →
  Obj.get g (Obj.set_in g k v params) = Some (VObj (Obj.set k v m)).
Proof. intros H. unfold Obj.set_in. rewrite H. apply get_set_eq. Qed.

Lemma carries_set_names k v n vs params :
  carries n vs params → carries (Obj.set k v n) vs (Obj.set_in NAMES k v params).
Proof.
  intros [Hn Hv]. split.
  - by apply get_set_in_eq.
  - by rewrite get_set_in_ne.
Qed.

Lemma carries_set_values k v n vs params :
  carries n vs params → carries n (Obj.set k v vs) (Obj.set_in VALUES k v params).
Proof.
  intros [Hn Hv]. split.
  - by rewrite get_set_in_ne.
  - by apply get_set_in_eq.
Qed.

(** The range test of the source accepts the two-element arrays. *)
Lemma is_range_spec v : is_range v = true ↔ ∃ a b, v = VArr [a; b].
Proof.
  split.
  - destruct v as [| | | | |l|]; try done.
    unfold is_range, isArray, length_of. intros H.
    assert (length l = 2) as Hl.
    { destruct (Z.of_nat (length l)) as [|q|q] eqn:E; try done.
      destruct q as [q|q|]; try done. destruct q; try done. lia. }
    destruct l as [|a [|b [|c l]]]; try done. by eauto.
  - by intros (a & b & ->).
Qed.

Lemma not_range_clause v key :
  is_range v = false →
  clause_of (v, key) = "#" +:+ key_string key +:+ " = :" +:+ key_string key
  ∧ value_bindings (v, key) = [(":" +:+ key_string key, v)].
Proof.
  intros H. destruct v as [| | | | |l|]; try done.
  destruct l as [|a [|b [|c l]]]; done.
Qed.

Lemma bind_range_carries key a b n vs params :
  carries n vs params →
  carries n (bind_all (value_bindings (VArr [a; b], key)) vs)
    (bind_range key [a; b] params).
Proof.
  intros H. unfold bind_range, Array_forEach. simpl.
  by do 2 apply carries_set_values.
Qed.

(** Lines 82-96 for one entry. *)
Lemma key_iteratee_spec p n vs params arr :
  carries n vs params →
  carries (bind_all [name_binding p] n) (bind_all (value_bindings p) vs)
    (key_iteratee p.1 p.2 (params, arr)).1
  ∧ (key_iteratee p.1 p.2 (params, arr)).2 = (arr ++ [clause_of p])%list.
Proof.
  intros H. destruct p as [v key]. unfold key_iteratee. simpl fst. simpl snd.
  apply (carries_set_names ("#" +:+ key_string key) (key_value key)) in H.
  destruct (is_range v) eqn:Hr.
  - apply is_range_spec in Hr as (a & b & ->). split; [|done].
    by apply bind_range_carries.
  - destruct (not_range_clause v key Hr) as [-> ->]. split; [|done].
    by apply carries_set_values.
Qed.

(** Lines 111-123 for one entry. *)
Lemma filter_iteratee_spec p n vs params :
  carries n vs params →
  carries (bind_all [name_binding p] n) (bind_all (value_bindings p) vs)
    (filter_iteratee p.1 p.2 params).
Proof.
  intros H. destruct p as [v key]. unfold filter_iteratee. simpl fst. simpl snd.
  apply (carries_set_names ("#" +:+ key_string key) (key_value key)) in H.
  destruct (is_range v) eqn:Hr.
  - apply is_range_spec in Hr as (a & b & ->). by apply bind_range_carries.
  - destruct (not_range_clause v key Hr) as [_ ->]. by apply carries_set_values.
Qed.

(** Lines 264-266 for one entry. *)
Lemma update_iteratee_spec p n vs params arr :
  carries n vs params →
  carries (bind_all [name_binding p] n) (bind_all [update_binding p] vs)
    (update_iteratee p.1 p.2 (params, arr)).1
  ∧ (update_iteratee p.1 p.2 (params, arr)).2 = (arr ++ [assignment_of p])%list.
Proof.
  intros H. destruct p as [v key]. split; [|done]. simpl.
  by apply carries_set_values, carries_set_names.
Qed.

(** The iteratees leave every other field of [params] alone. *)
Lemma bind_range_frame f key range params :
  f ≠ VALUES → Obj.get f (bind_range key range params) = Obj.get f params.
Proof.
  intros Hf. unfold bind_range, Array_forEach.
  generalize (imap pair range). intros l. revert params.
  induction l as [|[i x] l IH]; intros params; [done|]. simpl.
  rewrite IH. repeat case_decide; try done; by rewrite get_set_in_ne.
Qed.

Lemma key_iteratee_frame f p st :
  f ≠ NAMES → f ≠ VALUES →
  Obj.get f (key_iteratee p.1 p.2 st).1 = Obj.get f st.1.
Proof.
  intros Hn Hv. destruct st as [params arr]. unfold key_iteratee.
  destruct (is_range _); simpl.
  - by rewrite bind_range_frame, get_set_in_ne.
  - by rewrite !get_set_in_ne.
Qed.

Lemma filter_iteratee_frame f p params :
  f ≠ NAMES → f ≠ VALUES →
  Obj.get f (filter_iteratee p.1 p.2 params) = Obj.get f params.
Proof.
  intros Hn Hv. unfold filter_iteratee. destruct (is_range _).
  - by rewrite bind_range_frame, get_set_in_ne.
  - by rewrite !get_set_in_ne.
Qed.

Lemma update_iteratee_frame f p st :
  f ≠ NAMES → f ≠ VALUES →
  Obj.get f (update_iteratee p.1 p.2 st).1 = Obj.get f st.1.
Proof.
  intros Hn Hv. destruct st as [params arr]. simpl. by rewrite !get_set_in_ne.
Qed.

End Iteratees.

(** ** The parameters [where] generates *)

Section WhereGenerated.
Implicit Types (f : string) (params n vs : obj) (l : list (value * key)).

#[local] Arguments key_iteratee : simpl never.
#[local] Arguments filter_iteratee : simpl never.
#[local] Arguments update_iteratee : simpl never.

Lemma fold_key_iteratee l params arr n vs :
  carries n vs params →
  let r := fold_left (λ acc p, key_iteratee p.1 p.2 acc) l (params, arr) in
  carries (bind_all (name_binding <$> l) n) (bind_all (l ≫= value_bindings) vs) r.1
  ∧ r.2 = (arr ++ (clause_of <$> l))%list
  ∧ ∀ f, f ≠ NAMES → f ≠ VALUES → Obj.get f r.1 = Obj.get f params.
Proof.
  revert params arr n vs.
  induction l as [|p l IH]; intros params arr n vs H; simpl.
  - by rewrite app_nil_r.
  - destruct (key_iteratee_spec p n vs params arr H) as [H1 H2].
    destruct (key_iteratee p.1 p.2 (params, arr)) as [params' arr'] eqn:E.
    simpl in H1, H2. subst arr'.
    destruct (IH params' (arr ++ [clause_of p])%list _ _ H1) as (IH1 & IH2 & IH3).
    split_and!.
    + by rewrite bind_all_app.
    + by rewrite IH2, <- app_assoc.
    + intros f Hn Hv. rewrite IH3 by done.
      pose proof (key_iteratee_frame f p (params, arr) Hn Hv) as Hf.
      by rewrite E in Hf.
Qed.

Lemma fold_filter_iteratee l params n vs :
  carries n vs params →
  let r := fold_left (λ acc p, filter_iteratee p.1 p.2 acc) l params in
  carries (bind_all (name_binding <$> l) n) (bind_all (l ≫= value_bindings) vs) r
  ∧ ∀ f, f ≠ NAMES → f ≠ VALUES → Obj.get f r = Obj.get f params.
Proof.
  revert params n vs.
  induction l as [|p l IH]; intros params n vs H; simpl; [done|].
  pose proof (filter_iteratee_spec p n vs params H) as H1.
  destruct (IH _ _ _ H1) as (IH1 & IH2). split.
  - by rewrite bind_all_app.
  - intros f Hn Hv. rewrite IH2 by done. by apply filter_iteratee_frame.
Qed.

Lemma fold_update_iteratee l params arr n vs :
  carries n vs params →
  let r := fold_left (λ acc p, update_iteratee p.1 p.2 acc) l (params, arr) in
  carries (bind_all (name_binding <$> l) n) (bind_all (update_binding <$> l) vs) r.1
  ∧ r.2 = (arr ++ (assignment_of <$> l))%list
  ∧ ∀ f, f ≠ NAMES → f ≠ VALUES → Obj.get f r.1 = Obj.get f params.
Proof.
  revert params arr n vs.
  induction l as [|p l IH]; intros params arr n vs H; simpl.
  - by rewrite app_nil_r.
  - destruct (update_iteratee_spec p n vs params arr H) as [H1 H2].
    destruct (update_iteratee p.1 p.2 (params, arr)) as [params' arr'] eqn:E.
    simpl in H1, H2. subst arr'.
    destruct (IH params' (arr ++ [assignment_of p])%list _ _ H1) as (IH1 & IH2 & IH3).
    split_and!.
    + done.
    + by rewrite IH2, <- app_assoc.
    + intros f Hn Hv. rewrite IH3 by done.
      pose proof (update_iteratee_frame f p (params, arr) Hn Hv) as Hf.
      by rewrite E in Hf.
Qed.

(** What [where] has put under each field when it reaches line 127. *)
Lemma where_key_spec tn pk :
  carries (bind_all (name_binding <$> key_visits pk) [])
    (bind_all (key_visits pk ≫= value_bindings) []) (where_key tn pk)
  ∧ Obj.get KEY_CONDITION (where_key tn pk) =
      (if truthy pk
       then Some (VStr (join (clause_of <$> visits pk) " AND ")) else None)
  ∧ ∀ f, f ≠ NAMES → f ≠ VALUES → f ≠ KEY_CONDITION →
      Obj.get f (where_key tn pk) =
        Obj.get f [("TableName", VStr tn); ("ReturnConsumedCapacity", VStr "TOTAL")].
Proof.
  unfold where_key, key_visits. destruct (truthy pk).
  - unfold forEach.
    match goal with |- context [fold_left ?g ?l (?p, [])] =>
      destruct (fold_key_iteratee l p [] [] []) as (H1 & H2 & H3); [done|];
      destruct (fold_left g l (p, [])) as [params arr] end.
    simpl in H1, H2, H3. subst arr. destruct H1 as [Hn Hv]. split_and!.
    + split; by rewrite get_set_ne.
    + by rewrite get_set_eq.
    + intros f ? ? ?. rewrite get_set_ne, H3 by done. simpl.
      by repeat case_decide.
  - split_and!; try done. intros f ? ? ?. simpl. by repeat case_decide.
Qed.

Lemma where_generated_spec tn pk fe :
  carries (where_names pk fe) (where_values pk fe) (where_generated tn pk fe)
  ∧ Obj.get KEY_CONDITION (where_generated tn pk fe) =
      (if truthy pk
       then Some (VStr (join (clause_of <$> visits pk) " AND ")) else None)
  ∧ Obj.get FILTER (where_generated tn pk fe) =
      (if filter_applies fe then Some (member fe "condition") else None)
  ∧ ∀ f, f ≠ NAMES → f ≠ VALUES → f ≠ KEY_CONDITION → f ≠ FILTER →
      Obj.get f (where_generated tn pk fe) =
        Obj.get f [("TableName", VStr tn); ("ReturnConsumedCapacity", VStr "TOTAL")].
Proof.
  destruct (where_key_spec tn pk) as ([Hn Hv] & Hk & Hf).
  unfold where_generated, where_filter, where_names, where_values, filter_visits.
  change (truthy fe && _ && _) with (filter_applies fe).
  destruct (filter_applies fe).
  - unfold forEach.
    match goal with |- context [fold_left ?g ?l ?p] =>
      destruct (fold_filter_iteratee l p
                  (bind_all (name_binding <$> key_visits pk) [])
                  (bind_all (key_visits pk ≫= value_bindings) []))
        as (H1 & H2) end.
    { split; by rewrite get_set_ne. }
    simpl in H1, H2. split_and!.
    + by rewrite fmap_app, bind_app, !bind_all_app.
    + by rewrite H2, get_set_ne.
    + by rewrite H2, get_set_eq.
    + intros f ? ? ? ?. by rewrite H2, get_set_ne, Hf.
  - rewrite app_nil_r. split_and!; try done.
    + rewrite Hf; done.
    + intros f ? ? ? ?. by rewrite Hf.
Qed.

(** Nothing is accumulated exactly when [where] walks over nothing. *)
Lemma where_names_nil pk fe :
  where_names pk fe = [] ↔ key_visits pk = [] ∧ filter_visits fe = [].
Proof.
  unfold where_names. rewrite bind_all_nil. split.
  - by intros [? ?]%fmap_nil_inv%app_eq_nil.
  - by intros [-> ->].
Qed.

(** A placeholder map has no property named [length]: its keys start
    with [#] or with [:]. *)
Lemma names_no_length l n :
  Obj.get "length" n = None →
  Obj.get "length" (bind_all (name_binding <$> l) n) = None.
Proof.
  intros Hn. rewrite get_bind_all, Hn.
  rewrite (proj2 (last_binding_None _ _)); [done|].
  rewrite <- list_fmap_compose. intros (p & Hp & _)%list_elem_of_fmap.
  done.
Qed.

Lemma value_bindings_no_length p : "length" ∉ (value_bindings p).*1.
Proof.
  destruct p as [v k]. unfold value_bindings. simpl fst.
  destruct v as [| | | | |[|a [|b [|c l]]]|]; simpl;
    repeat (rewrite not_elem_of_cons; split; [done|]); apply not_elem_of_nil.
Qed.

Lemma values_no_length l vs :
  Obj.get "length" vs = None →
  Obj.get "length" (bind_all (l ≫= value_bindings) vs) = None.
Proof.
  intros Hn. rewrite get_bind_all, Hn.
  rewrite (proj2 (last_binding_None _ _)); [done|].
  intros (b & Hl & (p & Hb & _)%list_elem_of_bind)%list_elem_of_fmap.
  apply (value_bindings_no_length p), list_elem_of_fmap. eauto.
Qed.

(** For a map without a [length] property, [size] counts the properties. *)
Lemma size_zero m :
  Obj.get "length" m = None → (size (VObj m) =? 0)%Z = bool_decide (m = []).
Proof.
  intros H. unfold size, isArrayLike, length_of, Obj.read. rewrite H. simpl.
  destruct m as [|p m]; [done|]. by rewrite bool_decide_eq_false_2.
Qed.

#[local] Arguments size : simpl never.

(** Lines 127-133 on parameters that carry the two maps. *)
Lemma prune_spec params n vs f :
  carries n vs params →
  Obj.get "length" n = None → Obj.get "length" vs = None →
  Obj.get f (pruneEmptyPlaceholders params) =
    if decide (f = NAMES) then (if decide (n = []) then None else Some (VObj n))
    else if decide (f = VALUES) then (if decide (vs = []) then None else Some (VObj vs))
    else Obj.get f params.
Proof.
  intros [Hn Hv] Ln Lv. unfold pruneEmptyPlaceholders, Obj.read.
  rewrite Hn. simpl. rewrite (size_zero n Ln).
  destruct (decide (n = [])) as [->|Hne].
  - rewrite bool_decide_eq_true_2 by done.
    rewrite get_delete, decide_False, Hv by done. simpl.
    rewrite (size_zero vs Lv).
    destruct (decide (vs = [])) as [->|Hne'].
    + rewrite bool_decide_eq_true_2 by done. rewrite !get_delete.
      repeat case_decide; simplify_eq; done.
    + rewrite bool_decide_eq_false_2 by done. rewrite get_delete.
      repeat case_decide; simplify_eq; done.
  - rewrite bool_decide_eq_false_2 by done. rewrite Hv. simpl.
    rewrite (size_zero vs Lv).
    destruct (decide (vs = [])) as [->|Hne'].
    + rewrite bool_decide_eq_true_2 by done. rewrite get_delete.
      repeat case_decide; simplify_eq; done.
    + rewrite bool_decide_eq_false_2 by done.
      repeat case_decide; simplify_eq; done.
Qed.

End WhereGenerated.

(** ** Overrides *)

Section Overrides.
Implicit Types (f : string) (params c : obj) (config : value).

(** Assigning one after the other is binding what is not [__proto__]. *)
Lemma fold_assign_bind {A} (g : A → string * value) (l : list A) (m : obj) :
  fold_left (λ acc p, Obj.assign (g p).1 (g p).2 acc) l m =
    bind_all (filter (λ b, b.1 ≠ "__proto__") (g <$> l)) m.
Proof.
  revert m. induction l as [|p l IH]; intros m; [done|].
  rewrite fmap_cons, filter_cons. simpl. rewrite IH. unfold Obj.assign.
  destruct (decide ((g p).1 = "__proto__")) as [E|E].
  - by rewrite decide_False by (by intros H).
  - by rewrite decide_True.
Qed.

(** [assignConfig] assigns the overrides one after the other. *)
Lemma assignConfig_bind params config :
  assignConfig params config = bind_all (overrides config) params.
Proof.
  unfold assignConfig, forEach, overrides.
  apply (fold_assign_bind (λ p, (upperFirst (key_string p.2), p.1))).
Qed.

Lemma get_assignConfig f params config :
  Obj.get f (assignConfig params config) =
    match last_binding f (overrides config) with
    | Some v => Some v
    | None => Obj.get f params
    end.
Proof. by rewrite assignConfig_bind, get_bind_all. Qed.

(** [forEach] has nothing to visit in a falsy value. *)
Lemma visits_falsy config : truthy config = false → visits config = [].
Proof.
  destruct config as [| | | |s| |]; try done.
  destruct s; done.
Qed.

(** So the guard [if (config)] skips a call that would change nothing. *)
Lemma assignConfig_falsy params config :
  truthy config = false → assignConfig params config = params.
Proof.
  intros H. rewrite assignConfig_bind. unfold overrides.
  by rewrite (visits_falsy _ H).
Qed.

Lemma guarded_assignConfig params config :
  (if truthy config then assignConfig params config else params) =
    assignConfig params config.
Proof.
  destruct (truthy config) eqn:H; [done|]. by rewrite assignConfig_falsy.
Qed.

(** A plain object that is not array-like is walked entry by entry. *)
Lemma visits_plain c : isArrayLike (VObj c) = false → visits (VObj c) = entries c.
Proof. intros H. unfold visits. by rewrite H. Qed.

Lemma override_proto config : last_binding "__proto__" (overrides config) = None.
Proof.
  apply last_binding_None. unfold overrides.
  intros (b & Hb & [Hne _]%list_elem_of_filter)%list_elem_of_fmap. by apply Hne.
Qed.

Lemma last_binding_filter_ne f (bs : list (string * value)) :
  f ≠ "__proto__" →
  last_binding f (filter (λ b, b.1 ≠ "__proto__") bs) = last_binding f bs.
Proof.
  intros Hf. induction bs as [|[k v] bs IH]; [done|].
  rewrite filter_cons. simpl. destruct (decide (k ≠ "__proto__")) as [E|E].
  - simpl. by rewrite IH.
  - rewrite IH. destruct (last_binding f bs); [done|].
    rewrite decide_False; [done|]. intros ->. by apply E.
Qed.

Lemma overrides_plain f c :
  isArrayLike (VObj c) = false → f ≠ "__proto__" →
  last_binding f (overrides (VObj c)) = override_for f c.
Proof.
  intros H Hf. unfold overrides. rewrite last_binding_filter_ne by done.
  rewrite (visits_plain c H). unfold entries.
  clear H. rewrite <- list_fmap_compose.
  induction c as [|[k v] c IH]; [done|].
  rewrite fmap_cons. cbn [last_binding override_for compose fst snd key_string].
  by rewrite IH.
Qed.

End Overrides.

(** ** What reaches the store *)

Section Dispatch.
Variable store :
  list DocumentClient.request → DocumentClient.request → value * value.

(** Every call sends its one request and settles on the completion. *)
Lemma run_spec c w :
  run store c w =
    (let req := request_of (tableName (this w)) c in
     callback (store (sent w) req).1 (store (sent w) req).2,
     World (this w) (sent w ++ [request_of (tableName (this w)) c])).
Proof.
  destruct c; simpl; unfold find, where_, getAll, create, batchCreate, update,
    destroy, mbind, M_bind, this_tableName, invoke; simpl;
    try destruct (truthy primaryKey); by destruct (store _ _).
Qed.

(** No operation assigns to the handle. *)
Lemma run_this c w : this (run store c w).2 = this w.
Proof. by rewrite run_spec. Qed.

End Dispatch.

Lemma where_params_eq tn pk fe cfg :
  where_params tn pk fe cfg =
    assignConfig (pruneEmptyPlaceholders (where_generated tn pk fe)) cfg.
Proof. unfold where_params. by rewrite guarded_assignConfig. Qed.

Lemma where_pruned_get tn pk fe f :
  Obj.get f (pruneEmptyPlaceholders (where_generated tn pk fe)) =
    if decide (f = NAMES)
    then (if decide (where_names pk fe = []) then None
          else Some (VObj (where_names pk fe)))
    else if decide (f = VALUES)
    then (if decide (where_values pk fe = []) then None
          else Some (VObj (where_values pk fe)))
    else Obj.get f (where_generated tn pk fe).
Proof.
  destruct (where_generated_spec tn pk fe) as (Hc & _).
  apply prune_spec; [done| |].
  - by apply names_no_length.
  - by apply values_no_length.
Qed.

(** ** The copy that [assignConfig] returns *)

Lemma fold_assign r (l : list (value * key)) (h : gmap nat obj) :
  fold_left (λ acc p, Ref.assign r (upperFirst (key_string p.2)) p.1 acc) l h =
    alter (bind_all
             (filter (λ b, b.1 ≠ "__proto__")
                ((λ p, (upperFirst (key_string p.2), p.1)) <$> l))) r h.
Proof.
  revert h. induction l as [|p l IH]; intros h.
  - symmetry. apply (alter_id (M := gmap nat)). done.
  - simpl fold_left. rewrite IH. unfold Ref.assign. rewrite alter_alter_eq.
    apply alter_ext. intros o _. rewrite fmap_cons, filter_cons.
    cbn [compose fst snd]. unfold Obj.assign.
    destruct (decide (upperFirst (key_string p.2) = "__proto__")) as [E|E].
    + by rewrite decide_False by (by intros H).
    + by rewrite decide_True.
Qed.

(** On references [assignConfig] returns a new object holding what the
    value-level [assignConfig] computes, and changes no other object. *)
Lemma ref_assignConfig (h : gmap nat obj) (r : nat) (params : obj) (config : value) :
  h !! r = Some params →
  ∃ r' h',
    Ref.assignConfig r config h = Some (r', h')
    ∧ h !! r' = None
    ∧ h' !! r' = Some (assignConfig params config)
    ∧ ∀ q, q ≠ r' → h' !! q = h !! q.
Proof.
  intros Hr. unfold Ref.assignConfig, Ref.alloc. rewrite Hr. simpl.
  set (r' := fresh (dom h)).
  assert (h !! r' = None) as Hfresh.
  { apply not_elem_of_dom. apply is_fresh. }
  eexists r', _. split; [done|]. split; [done|].
  unfold forEach. rewrite fold_assign. split.
  - rewrite lookup_alter_eq, lookup_insert_eq. simpl.
    by rewrite assignConfig_bind.
  - intros q Hq. by rewrite lookup_alter_ne, lookup_insert_ne.
Qed.

(** ** Plain key specifications *)

Section KeyCondition.
Implicit Types (o : obj) (l : list value) (name : string).

Lemma key_visits_plain o :
  isArrayLike (VObj o) = false → key_visits (VObj o) = entries o.
Proof. intros H. unfold key_visits. simpl. by apply visits_plain. Qed.

Lemma last_binding_middle k v (bs1 bs2 : list (string * value)) :
  k ∉ bs2.*1 → last_binding k (bs1 ++ (k, v) :: bs2) = Some v.
Proof.
  intros H%last_binding_None. rewrite last_binding_app. simpl.
  by rewrite H, decide_True.
Qed.

(** An array that does not have two elements is not a range. *)
Lemma long_array_scalar l key :
  length l ≠ 2 →
  clause_of (VArr l, key) = "#" +:+ key_string key +:+ " = :" +:+ key_string key
  ∧ value_bindings (VArr l, key) = [(":" +:+ key_string key, VArr l)].
Proof.
  intros Hl. apply not_range_clause.
  destruct (is_range (VArr l)) eqn:E; [|done].
  apply is_range_spec in E as (a & b & [= ->]). done.
Qed.

(** The key condition of a plain key specification: one clause per entry
    in the order of the entries, the bindings made in that order, and each
    placeholder of an entry listed once in its map. *)
Lemma where_key_condition_plain tn o fe :
  isArrayLike (VObj o) = false →
  filter_applies fe = false →
  let params := where_generated tn (VObj o) fe in
  let names := bind_all (name_binding <$> entries o) [] in
  let values := bind_all (entries o ≫= value_bindings) [] in
  Obj.get KEY_CONDITION params =
    Some (VStr (join (clause_of <$> entries o) " AND "))
  ∧ Obj.get NAMES params = Some (VObj names)
  ∧ Obj.get VALUES params = Some (VObj values)
  ∧ ∀ e, e ∈ entries o →
      length (filter ((name_binding e).1 =.) (Obj.keys names)) = 1
      ∧ ∀ b, b ∈ value_bindings e →
          length (filter (b.1 =.) (Obj.keys values)) = 1.
Proof.
  intros Ho Hfe. cbv zeta.
  destruct (where_generated_spec tn (VObj o) fe) as ([Hn Hv] & Hk & _).
  unfold where_names, where_values, filter_visits in *.
  rewrite Hfe, app_nil_r, key_visits_plain in * by done.
  rewrite (visits_plain o Ho) in Hk. split_and!; try done.
  intros e He. split.
  - apply occurs_once; [by apply NoDup_keys_bind_all, NoDup_nil|].
    apply elem_of_keys_bind_all. left.
    apply list_elem_of_fmap. exists (name_binding e). split; [done|].
    by apply list_elem_of_fmap_2.
  - intros b Hb. apply occurs_once; [by apply NoDup_keys_bind_all, NoDup_nil|].
    apply elem_of_keys_bind_all. left.
    apply list_elem_of_fmap. exists b. split; [done|].
    apply list_elem_of_bind. eauto.
Qed.

End KeyCondition.

(** ** Plain update specifications *)

Section UpdateExpression.
Implicit Types (d : obj) (k : string) (v : value).

(** With distinct attribute names and an injective placeholder scheme,
    each entry's binding is the last for its placeholder. *)
Lemma last_binding_inj (g : string → string) (val : string * value → value) d k v :
  Inj (=) (=) g →
  NoDup d.*1 → (k, v) ∈ d →
  last_binding (g k) ((λ p, (g p.1, val p)) <$> d) = Some (val (k, v)).
Proof.
  intros Hg. induction d as [|[k0 v0] d IH]; [by intros _ ?%elem_of_nil|].
  rewrite fmap_cons. intros [Hk0 Hd]%NoDup_cons [[= -> ->]|Hin]%elem_of_cons.
  - cbn [fmap list_fmap last_binding fst].
    rewrite (proj2 (last_binding_None _ _)), decide_True; [done..|].
    rewrite <- list_fmap_compose.
    intros (p & Hp & Hin)%list_elem_of_fmap. simpl in Hp.
    apply Hg in Hp as ->. apply Hk0. simpl. by apply list_elem_of_fmap_2.
  - cbn [fmap list_fmap last_binding fst]. by rewrite IH.
Qed.

Lemma hash_inj : Inj (=) (=) (String.append "#").
Proof. intros a b H. simpl in H. by injection H. Qed.

Lemma colon_inj : Inj (=) (=) (String.append ":").
Proof. intros a b H. simpl in H. by injection H. Qed.

#[local] Arguments update_iteratee : simpl never.

(** The parameters of [update] for a plain update specification. *)
Lemma update_params_plain tn pk d :
  isArrayLike (VObj d) = false →
  let params := update_params tn pk (VObj d) VUndefined in
  let names := bind_all (name_binding <$> entries d) [] in
  let values := bind_all (update_binding <$> entries d) [] in
  Obj.get "Key" params = Some pk
  ∧ Obj.get "UpdateExpression" params =
      Some (VStr ("set " +:+ join (assignment_of <$> entries d) ", "))
  ∧ Obj.get NAMES params = Some (VObj names)
  ∧ Obj.get VALUES params = Some (VObj values)
  ∧ Obj.get "ReturnValues" params = Some (VStr "ALL_NEW")
  ∧ (NoDup d.*1 → ∀ k v, (k, v) ∈ d →
       Obj.get ("#" +:+ k) names = Some (VStr k)
       ∧ Obj.get (":" +:+ k) values = Some v).
Proof.
  intros Hd. cbv zeta. unfold update_params, forEach.
  rewrite (visits_plain d Hd). simpl truthy. cbv iota.
  match goal with |- context [fold_left ?g ?l (?p, [])] =>
    destruct (fold_update_iteratee l p [] [] []) as (H1 & H2 & H3); [done|];
    destruct (fold_left g l (p, [])) as [params arr] end.
  simpl in H1, H2, H3. subst arr. destruct H1 as [Hn Hv]. split_and!.
  - by rewrite get_set_ne, H3.
  - by rewrite get_set_eq.
  - by rewrite get_set_ne.
  - by rewrite get_set_ne.
  - by rewrite get_set_ne, H3.
  - intros Hnd k v Hin. rewrite !get_bind_all. simpl. unfold entries.
    rewrite <- !list_fmap_compose. split.
    + pose proof (last_binding_inj (String.append "#") (λ p, VStr p.1)
                    d k v hash_inj Hnd Hin) as E.
      change (last_binding ("#" +:+ k)
                (name_binding ∘ (λ p : string * value, (p.2, Name p.1)) <$> d)
              = Some (VStr k)) in E.
      by rewrite E.
    + pose proof (last_binding_inj (String.append ":") (λ p, p.2)
                    d k v colon_inj Hnd Hin) as E.
      change (last_binding (":" +:+ k)
                (update_binding ∘ (λ p : string * value, (p.2, Name p.1)) <$> d)
              = Some v) in E.
      by rewrite E.
Qed.

End UpdateExpression.

(** ** Entries of a plain key specification, one by one *)

Section Entries.
Implicit Types (o : obj) (es : list (value * key)) (k name : string).

Lemma start_not_end name : ":" +:+ name +:+ "Start" ≠ ":" +:+ name +:+ "End".
Proof.
  simpl. intros [= H]. induction name as [|c name IH]; [done|].
  simpl in H. by injection H.
Qed.

(** A binding of the entry at position [i] is what its placeholder reads
    as, unless the entry itself or a later entry binds the placeholder
    again. *)
Lemma binding_survives es i e bs1 k x bs2 vs :
  es !! i = Some e →
  value_bindings e = (bs1 ++ (k, x) :: bs2)%list →
  k ∉ bs2.*1 →
  k ∉ (drop (S i) es ≫= value_bindings).*1 →
  Obj.get k (bind_all (es ≫= value_bindings) vs) = Some x.
Proof.
  intros Hi He H2 Hlater. rewrite get_bind_all.
  rewrite <- (take_drop_middle es i e Hi), bind_app, bind_cons, He.
  set (before := take i es ≫= value_bindings).
  set (after := drop (S i) es ≫= value_bindings) in *.
  assert ((before ++ (bs1 ++ (k, x) :: bs2) ++ after =
           (before ++ bs1) ++ (k, x) :: (bs2 ++ after))%list) as ->.
  { by rewrite <- !app_assoc. }
  rewrite last_binding_middle; [done|].
  rewrite fmap_app. by intros [?|?]%elem_of_app.
Qed.

(** A scalar entry of a plain key specification: the equality clause at
    its place, [#name] bound to the name and [:name] to the value. *)
Lemma scalar_entry_equality tn o i name v :
  isArrayLike (VObj o) = false →
  o !! i = Some (name, v) → is_range v = false →
  let params := where_generated tn (VObj o) VUndefined in
  ∃ clauses names values,
    Obj.get KEY_CONDITION params = Some (VStr (join clauses " AND "))
    ∧ clauses !! i = Some ("#" +:+ name +:+ " = :" +:+ name)
    ∧ Obj.get NAMES params = Some (VObj names)
    ∧ Obj.get VALUES params = Some (VObj values)
    ∧ (NoDup o.*1 → Obj.get ("#" +:+ name) names = Some (VStr name))
    ∧ ((":" +:+ name) ∉ (entries (drop (S i) o) ≫= value_bindings).*1 →
       Obj.get (":" +:+ name) values = Some v).
Proof.
  intros Ho Hi Hv.
  destruct (where_key_condition_plain tn o VUndefined Ho eq_refl)
    as (Hk & Hn & Hvs & _).
  assert (entries o !! i = Some (v, Name name)) as Hi'.
  { unfold entries. by rewrite list_lookup_fmap, Hi. }
  destruct (not_range_clause v (Name name) Hv) as [Hc Hb].
  eexists _, _, _. split_and!; [done| |done|done| |].
  - rewrite list_lookup_fmap, Hi'. cbn [fmap option_fmap option_map].
    by rewrite Hc.
  - intros Hnd. rewrite get_bind_all. unfold entries.
    rewrite <- list_fmap_compose.
    assert ((name, v) ∈ o) as Hin by (by eapply list_elem_of_lookup_2).
    pose proof (last_binding_inj (String.append "#") (λ p, VStr p.1)
                  o name v hash_inj Hnd Hin) as E.
    change (last_binding ("#" +:+ name)
              (name_binding ∘ (λ p : string * value, (p.2, Name p.1)) <$> o)
            = Some (VStr name)) in E.
    by rewrite E.
  - intros Hlater.
    apply (binding_survives (entries o) i (v, Name name) [] _ v []); try done.
    + apply not_elem_of_nil.
    + unfold entries. by rewrite <- fmap_drop.
Qed.

(** A range entry of a plain key specification: the BETWEEN clause at its
    place, [:nameStart] bound to the first element and [:nameEnd] to the
    second. *)
Lemma range_entry_between tn o i name a b :
  isArrayLike (VObj o) = false →
  o !! i = Some (name, VArr [a; b]) →
  let params := where_generated tn (VObj o) VUndefined in
  let later := (entries (drop (S i) o) ≫= value_bindings).*1 in
  ∃ clauses values,
    Obj.get KEY_CONDITION params = Some (VStr (join clauses " AND "))
    ∧ clauses !! i =
        Some ("#" +:+ name +:+ " BETWEEN :" +:+ name +:+ "Start AND :"
              +:+ name +:+ "End")
    ∧ Obj.get VALUES params = Some (VObj values)
    ∧ ((":" +:+ name +:+ "Start") ∉ later →
       Obj.get (":" +:+ name +:+ "Start") values = Some a)
    ∧ ((":" +:+ name +:+ "End") ∉ later →
       Obj.get (":" +:+ name +:+ "End") values = Some b).
Proof.
  intros Ho Hi.
  destruct (where_key_condition_plain tn o VUndefined Ho eq_refl)
    as (Hk & _ & Hvs & _).
  assert (entries o !! i = Some (VArr [a; b], Name name)) as Hi'.
  { unfold entries. by rewrite list_lookup_fmap, Hi. }
  eexists _, _. split_and!; [done| |done| |].
  - by rewrite list_lookup_fmap, Hi'.
  - intros Hlater.
    apply (binding_survives (entries o) i (VArr [a; b], Name name)
             [] _ a [(":" +:+ name +:+ "End", b)]); try done.
    + intros ?%list_elem_of_singleton. by eapply start_not_end.
    + unfold entries. by rewrite <- fmap_drop.
  - intros Hlater.
    apply (binding_survives (entries o) i (VArr [a; b], Name name)
             [(":" +:+ name +:+ "Start", a)] _ b []); try done.
    + apply not_elem_of_nil.
    + unfold entries. by rewrite <- fmap_drop.
Qed.

End Entries.

(** The bindings of a list of entries, split at an entry whose array is not
    a range. *)
Lemma bindings_split (es : list (value * key)) i l key :
  es !! i = Some (VArr l, key) → length l ≠ 2 →
  es ≫= value_bindings =
    ((take i es ≫= value_bindings) ++
     (":" +:+ key_string key, VArr l) :: (drop (S i) es ≫= value_bindings))%list.
Proof.
  intros Hi Hl. rewrite <- (take_drop_middle es i _ Hi) at 1.
  rewrite bind_app, bind_cons.
  by rewrite (proj2 (long_array_scalar l key Hl)).
Qed.

(** * The claims *)

(** ** The handle *)

(** C1 (the code at any [(tableName, tableRegion)]): the handle stores the
    table name, but the options object handed to the client holds the region
    under the key [tableRegion]; the option named [region], from which the
    client takes its region, is absent. *)
Theorem constructor_region_option tn tableRegion :
  tableName (constructor tn tableRegion) = tn
  ∧ DocumentClient.options (dynamoClient (constructor tn tableRegion)) =
      [("tableRegion", VStr tableRegion)]
  ∧ DocumentClient.region (dynamoClient (constructor tn tableRegion)) = None.
Proof. done. Qed.

(** The handle is fixed: whatever is called on it, and however the store
    answers, the table name and the client stay what they were. *)
Lemma handle_fixed store (calls : list call) w :
  this (fold_left (λ w c, (run store c w).2) calls w) = this w.
Proof.
  revert w. induction calls as [|c calls IH]; intros w; [done|].
  simpl. by rewrite IH, run_this.
Qed.

(** ** Pruning the empty placeholder maps *)

(** C3 (as amended): [where] prunes first and merges second.  The request it
    sends carries [assignConfig] applied to the pruned generated parameters,
    for every primary key, filter and override configuration. *)
Theorem where_prunes_then_merges store pk fe cfg w :
  sent (where_ store pk fe cfg w).2 =
    (sent w ++
     [DocumentClient.Request
        (if truthy pk then DocumentClient.query else DocumentClient.scan)
        (assignConfig
           (pruneEmptyPlaceholders (where_generated (tableName (this w)) pk fe))
           cfg)])%list.
Proof.
  change (where_ store pk fe cfg w) with (run store (Where pk fe cfg) w).
  rewrite run_spec. simpl. by rewrite where_params_eq.
Qed.

(** C3 (as stated) fails: with the override [{expressionAttributeNames: {}}]
    and no key and no filter, the request sent keeps the empty map that the
    override brings, while pruning after merging would have removed it. *)
Lemma pruning_after_merging_refuted :
  let cfg := VObj [("expressionAttributeNames", VObj [])] in
  let w := World (constructor "t" "eu-west-1") [] in
  let generated := where_generated "t" VUndefined VUndefined in
  ∃ dispatched,
    sent (where_ (λ _ _, (VNull, VNull)) VUndefined VUndefined cfg w).2 =
      [DocumentClient.Request DocumentClient.scan dispatched]
    ∧ Obj.get NAMES dispatched = Some (VObj [])
    ∧ Obj.get NAMES (pruneEmptyPlaceholders (assignConfig generated cfg)) = None
    ∧ dispatched ≠ pruneEmptyPlaceholders (assignConfig generated cfg).
Proof. eexists. split_and!; [reflexivity|reflexivity|reflexivity|discriminate]. Qed.

(** C2 (as amended): in [where], when the placeholder map accumulated under
    [ExpressionAttributeNames] or [ExpressionAttributeValues] is empty, the
    parameters that reach override merging do not have that field, and the
    request has it exactly as the override configuration assigns it: not at
    all when the configuration does not name it. *)
Theorem where_omits_empty_placeholders tn pk fe cfg field :
  field = NAMES ∨ field = VALUES →
  Obj.get field (where_generated tn pk fe) = Some (VObj []) →
  Obj.get field (pruneEmptyPlaceholders (where_generated tn pk fe)) = None
  ∧ Obj.get field (where_params tn pk fe cfg) = last_binding field (overrides cfg).
Proof.
  intros Hfield Hempty.
  destruct (where_generated_spec tn pk fe) as ([Hn Hv] & _).
  assert (Obj.get field (pruneEmptyPlaceholders (where_generated tn pk fe)) = None)
    as Hpruned.
  { rewrite where_pruned_get. destruct Hfield as [-> | ->].
    - rewrite decide_True by done. rewrite Hn in Hempty.
      injection Hempty as ->. by rewrite decide_True.
    - rewrite decide_False, decide_True by done. rewrite Hv in Hempty.
      injection Hempty as ->. by rewrite decide_True. }
  split; [done|].
  rewrite where_params_eq, get_assignConfig, Hpruned.
  by destruct (last_binding _ _).
Qed.

Lemma where_omits_empty_placeholders_witness :
  let cfg := VObj [("limit", VNum 10)] in
  (NAMES = NAMES ∨ NAMES = VALUES)
  ∧ Obj.get NAMES (where_generated "users" VUndefined VUndefined) = Some (VObj [])
  ∧ Obj.get NAMES (where_params "users" VUndefined VUndefined cfg) = None.
Proof.
  split_and!; [by left|reflexivity|].
  apply (where_omits_empty_placeholders "users" VUndefined VUndefined
           (VObj [("limit", VNum 10)]) NAMES); [by left|reflexivity].
Defined.

(** C2 (as stated) fails in [where]: no key and no filter, so nothing is
    accumulated, yet the override [{expressionAttributeValues: {}}] puts the
    empty map into the request. *)
Lemma empty_placeholders_sent_by_override :
  let cfg := VObj [("expressionAttributeValues", VObj [])] in
  Obj.get VALUES (where_generated "t" VUndefined VUndefined) = Some (VObj [])
  ∧ Obj.get VALUES (where_params "t" VUndefined VUndefined cfg) = Some (VObj []).
Proof. by split. Qed.

(** [update] has no pruning step: an update with nothing to set sends both
    maps empty. *)
Lemma update_sends_empty_placeholders key :
  Obj.get NAMES (update_params "t" key (VObj []) VUndefined) = Some (VObj [])
  ∧ Obj.get VALUES (update_params "t" key (VObj []) VUndefined) = Some (VObj [])
  ∧ Obj.get NAMES (update_params "t" key VUndefined VUndefined) = Some (VObj []).
Proof. done. Qed.

(** ** The key condition *)

(** C4 (as amended).  For a key specification that is a plain object, not
    array-like: the key condition is the clauses of the entries, in the
    order of the entries, joined with [ AND ]; the two placeholder maps are
    the bindings of the entries made in that order.  A scalar entry emits
    [#name = :name] and binds [:name] to its value; an entry whose value is
    a two-element array emits [#name BETWEEN :nameStart AND :nameEnd] and
    binds [:nameStart] and [:nameEnd] to the first and second element; each
    binds [#name] to the name.  The name placeholder of an entry is listed
    once in the name map, and each of its value placeholders (one for a
    scalar, two for a range) once in the value map. *)
Theorem key_condition_of_plain_specification tn o :
  isArrayLike (VObj o) = false →
  ∃ names values,
    Obj.get KEY_CONDITION (where_generated tn (VObj o) VUndefined) =
      Some (VStr (join (clause_of <$> entries o) " AND "))
    ∧ Obj.get NAMES (where_generated tn (VObj o) VUndefined) = Some (VObj names)
    ∧ names = bind_all (name_binding <$> entries o) []
    ∧ Obj.get VALUES (where_generated tn (VObj o) VUndefined) = Some (VObj values)
    ∧ values = bind_all (entries o ≫= value_bindings) []
    ∧ ∀ name v, (name, v) ∈ o →
        name_binding (v, Name name) = ("#" +:+ name, VStr name)
        ∧ match v with
          | VArr [a; b] =>
              clause_of (v, Name name) =
                "#" +:+ name +:+ " BETWEEN :" +:+ name +:+ "Start AND :"
                +:+ name +:+ "End"
              ∧ value_bindings (v, Name name) =
                  [(":" +:+ name +:+ "Start", a); (":" +:+ name +:+ "End", b)]
          | _ =>
              clause_of (v, Name name) = "#" +:+ name +:+ " = :" +:+ name
              ∧ value_bindings (v, Name name) = [(":" +:+ name, v)]
          end
        ∧ length (filter (("#" +:+ name) =.) (Obj.keys names)) = 1
        ∧ ∀ b, b ∈ value_bindings (v, Name name) →
            length (filter (b.1 =.) (Obj.keys values)) = 1.
Proof.
  intros Ho.
  destruct (where_key_condition_plain tn o VUndefined Ho eq_refl)
    as (Hk & Hn & Hv & Honce).
  eexists _, _. split_and!; [done..|].
  intros name v Hin.
  destruct (Honce (v, Name name)) as [H1 H2].
  { unfold entries. apply list_elem_of_fmap. by exists (name, v). }
  split_and!; [done| |done|done].
  destruct v as [| | | | |[|a [|b [|c l]]]|]; done.
Qed.

Lemma key_condition_of_plain_specification_witness :
  let o := [("status", VStr "active"); ("age", VArr [VNum 18; VNum 30])] in
  isArrayLike (VObj o) = false
  ∧ ∃ names values,
      Obj.get KEY_CONDITION (where_generated "t" (VObj o) VUndefined) =
        Some (VStr (join (clause_of <$> entries o) " AND "))
      ∧ Obj.get NAMES (where_generated "t" (VObj o) VUndefined) = Some (VObj names)
      ∧ names = bind_all (name_binding <$> entries o) []
      ∧ Obj.get VALUES (where_generated "t" (VObj o) VUndefined) = Some (VObj values)
      ∧ values = bind_all (entries o ≫= value_bindings) []
      ∧ ∀ name v, (name, v) ∈ o →
          name_binding (v, Name name) = ("#" +:+ name, VStr name)
          ∧ match v with
            | VArr [a; b] =>
                clause_of (v, Name name) =
                  "#" +:+ name +:+ " BETWEEN :" +:+ name +:+ "Start AND :"
                  +:+ name +:+ "End"
                ∧ value_bindings (v, Name name) =
                    [(":" +:+ name +:+ "Start", a); (":" +:+ name +:+ "End", b)]
            | _ =>
                clause_of (v, Name name) = "#" +:+ name +:+ " = :" +:+ name
                ∧ value_bindings (v, Name name) = [(":" +:+ name, v)]
            end
          ∧ length (filter (("#" +:+ name) =.) (Obj.keys names)) = 1
          ∧ ∀ b, b ∈ value_bindings (v, Name name) →
              length (filter (b.1 =.) (Obj.keys values)) = 1.
Proof.
  split; [reflexivity|].
  apply (key_condition_of_plain_specification "t"
           [("status", VStr "active"); ("age", VArr [VNum 18; VNum 30])]).
  reflexivity.
Defined.

(** C4 (as stated) fails for a range: the attribute is not listed once in
    the value map but twice, as [:ageStart] and as [:ageEnd]. *)
Lemma range_has_two_value_placeholders :
  let params :=
    where_params "t" (VObj [("age", VArr [VNum 18; VNum 30])]) VUndefined VUndefined in
  Obj.get NAMES params = Some (VObj [("#age", VStr "age")])
  ∧ Obj.get VALUES params = Some (VObj [(":ageStart", VNum 18); (":ageEnd", VNum 30)])
  ∧ length (filter (λ k, String.prefix ":age" k = true)
              (Obj.keys [(":ageStart", VNum 18); (":ageEnd", VNum 30)])) = 2
  ∧ Obj.get ":age" [(":ageStart", VNum 18); (":ageEnd", VNum 30)] = None.
Proof. done. Qed.

(** A key specification with an attribute named [length]: lodash's
    [forEach] takes [{length: 1}] for array-like and visits the index 0, not
    the entry; the condition is [#0 = :0], with [#0] bound to the number 0
    and [:0] to [undefined]. *)
Lemma where_key_named_length :
  let params := where_params "t" (VObj [("length", VNum 1)]) VUndefined VUndefined in
  visits (VObj [("length", VNum 1)]) = [(VUndefined, Index 0)]
  ∧ Obj.get KEY_CONDITION params = Some (VStr "#0 = :0")
  ∧ Obj.get NAMES params = Some (VObj [("#0", VNum 0)])
  ∧ Obj.get VALUES params = Some (VObj [(":0", VUndefined)]).
Proof. done. Qed.

(** The scenario of the specification:
    [where({status: "active", age: [18, 30]})]. *)
Example where_status_age :
  where_params "t"
    (VObj [("status", VStr "active"); ("age", VArr [VNum 18; VNum 30])])
    VUndefined VUndefined =
  [("TableName", VStr "t");
   (NAMES, VObj [("#status", VStr "status"); ("#age", VStr "age")]);
   (VALUES, VObj [(":status", VStr "active"); (":ageStart", VNum 18);
                  (":ageEnd", VNum 30)]);
   ("ReturnConsumedCapacity", VStr "TOTAL");
   (KEY_CONDITION,
    VStr "#status = :status AND #age BETWEEN :ageStart AND :ageEnd")].
Proof. reflexivity. Qed.

(** ** Dispatch and settlement *)

(** C5: [where] sends one request, to [query] when the primary key is
    truthy and to [scan] otherwise; called with no arguments it sends to
    [scan] the table name and the capacity flag only, so no key condition
    expression. *)
Theorem where_query_or_scan store pk fe cfg w :
  (∃ params,
     sent (where_ store pk fe cfg w).2 =
       (sent w ++ [DocumentClient.Request
                    (if truthy pk then DocumentClient.query else DocumentClient.scan)
                    params])%list)
  ∧ sent (where_ store VUndefined VUndefined VUndefined w).2 =
      (sent w ++ [DocumentClient.Request DocumentClient.scan
                   [("TableName", VStr (tableName (this w)));
                    ("ReturnConsumedCapacity", VStr "TOTAL")]])%list
  ∧ Obj.get KEY_CONDITION
      (where_params (tableName (this w)) VUndefined VUndefined VUndefined) = None.
Proof.
  split_and!.
  - exists (where_params (tableName (this w)) pk fe cfg).
    change (where_ store pk fe cfg w) with (run store (Where pk fe cfg) w).
    by rewrite run_spec.
  - change (where_ store ?a ?b ?c w) with (run store (Where a b c) w).
    by rewrite run_spec.
  - done.
Qed.

(** C8: each of the seven operations sends exactly one request; when the
    store completes it with [(error, data)], the promise is rejected with
    that very [error] if it is truthy and is resolved with that very [data]
    otherwise. *)
Theorem operation_settles_as_store_completes store (c : call) w :
  ∃ req,
    sent (run store c w).2 = (sent w ++ [req])%list
    ∧ (run store c w).1 =
        (if truthy (store (sent w) req).1
         then Rejected (store (sent w) req).1
         else Resolved (store (sent w) req).2).
Proof.
  exists (request_of (tableName (this w)) c). by rewrite run_spec.
Qed.

(** ** The update expression *)

(** C6 (the code at [update({id: "1"}, {length: 2})]): lodash's [forEach]
    takes the update specification for array-like and visits the indices 0
    and 1; the attribute [length] gets no assignment and no placeholder. *)
Theorem update_attribute_named_length :
  let params :=
    update_params "t" (VObj [("id", VStr "1")]) (VObj [("length", VNum 2)])
      VUndefined in
  visits (VObj [("length", VNum 2)]) = [(VUndefined, Index 0); (VUndefined, Index 1)]
  ∧ Obj.get "UpdateExpression" params = Some (VStr "set #0 = :0, #1 = :1")
  ∧ Obj.get NAMES params = Some (VObj [("#0", VNum 0); ("#1", VNum 1)])
  ∧ Obj.get VALUES params = Some (VObj [(":0", VUndefined); (":1", VUndefined)]).
Proof. done. Qed.

(** The scenario of the specification: [update({id: "1"}, {name: "Bob"})]. *)
Example update_name_bob :
  update_params "t" (VObj [("id", VStr "1")]) (VObj [("name", VStr "Bob")])
    VUndefined =
  [("TableName", VStr "t");
   ("Key", VObj [("id", VStr "1")]);
   (NAMES, VObj [("#name", VStr "name")]);
   (VALUES, VObj [(":name", VStr "Bob")]);
   ("ReturnValues", VStr "ALL_NEW");
   ("UpdateExpression", VStr "set #name = :name")].
Proof. reflexivity. Qed.

(** ** Merging the overrides *)

(** C7 (as amended): for an override object that is not array-like and
    whose keys start with an ASCII character, [assignConfig] leaves the
    generated object as it was and returns a new object in which every
    field other than [__proto__] reads as the last override entry whose
    capitalised key is the field's name gives it, and as the generated
    object has it when there is no such entry.  An override key
    [__proto__] creates no field: that one reads as in the generated
    object. *)
Theorem assignConfig_last_override_wins
    (h : gmap nat obj) (r : nat) (params c : obj) :
  h !! r = Some params →
  isArrayLike (VObj c) = false →
  ascii_overrides (VObj c) →
  ∃ r' h' merged,
    Ref.assignConfig r (VObj c) h = Some (r', h')
    ∧ r' ≠ r
    ∧ h' !! r = Some params
    ∧ h' !! r' = Some merged
    ∧ merged = assignConfig params (VObj c)
    ∧ Obj.get "__proto__" merged = Obj.get "__proto__" params
    ∧ ∀ f, f ≠ "__proto__" →
        Obj.get f merged =
          match override_for f c with
          | Some v => Some v
          | None => Obj.get f params
          end.
Proof.
  intros Hr Hc _.
  destruct (ref_assignConfig h r params (VObj c) Hr) as (r' & h' & H1 & H2 & H3 & H4).
  assert (r' ≠ r) as Hne by (intros ->; congruence).
  exists r', h', (assignConfig params (VObj c)). split_and!; try done.
  - by rewrite H4.
  - by rewrite get_assignConfig, override_proto.
  - intros f Hf. by rewrite get_assignConfig, overrides_plain.
Qed.

Lemma assignConfig_last_override_wins_witness :
  let h : gmap nat obj := {[ 0 := [("TableName", VStr "users")] ]} in
  let c := [("limit", VNum 10); ("tableName", VStr "other"); ("__proto__", VNum 5)] in
  h !! 0 = Some [("TableName", VStr "users")]
  ∧ isArrayLike (VObj c) = false
  ∧ ascii_overrides (VObj c)
  ∧ ∃ r' h' merged,
      Ref.assignConfig 0 (VObj c) h = Some (r', h')
      ∧ r' ≠ 0
      ∧ h' !! 0 = Some [("TableName", VStr "users")]
      ∧ h' !! r' = Some merged
      ∧ merged = assignConfig [("TableName", VStr "users")] (VObj c)
      ∧ Obj.get "__proto__" merged = Obj.get "__proto__" [("TableName", VStr "users")]
      ∧ ∀ f, f ≠ "__proto__" →
          Obj.get f merged =
            match override_for f c with
            | Some v => Some v
            | None => Obj.get f [("TableName", VStr "users")]
            end.
Proof.
  assert (ascii_overrides
            (VObj [("limit", VNum 10); ("tableName", VStr "other");
                   ("__proto__", VNum 5)])) as Hascii.
  { unfold ascii_overrides. simpl. repeat constructor. }
  split_and!; [reflexivity|reflexivity|exact Hascii|].
  apply (assignConfig_last_override_wins
           {[ 0 := [("TableName", VStr "users")] ]} 0
           [("TableName", VStr "users")]
           [("limit", VNum 10); ("tableName", VStr "other"); ("__proto__", VNum 5)]);
    [reflexivity|reflexivity|exact Hascii].
Defined.

(** An override key [__proto__] adds no field to the parameters. *)
Example assignConfig_proto_key :
  assignConfig [("TableName", VStr "t")]
    (VObj [("__proto__", VNum 5); ("limit", VNum 1)]) =
  [("TableName", VStr "t"); ("Limit", VNum 1)].
Proof. reflexivity. Qed.

(** C7 (as stated) fails: of two override entries whose keys capitalise to
    the same name, only the later one is in the returned object. *)
Lemma earlier_override_overwritten :
  let params := [("TableName", VStr "t")] in
  let c := [("limit", VNum 1); ("Limit", VNum 2)] in
  ("limit", VNum 1) ∈ c
  ∧ isArrayLike (VObj c) = false
  ∧ Obj.get (upperFirst "limit") (assignConfig params (VObj c)) = Some (VNum 2)
  ∧ Obj.get (upperFirst "limit") (assignConfig params (VObj c)) ≠ Some (VNum 1).
Proof. split_and!; [by left|done|done|done]. Qed.

(** ** Defaults and overrides *)

(** C9: without an override [find] sends [ConsistentRead: true] and
    [ReturnConsumedCapacity: "TOTAL"], and [where] and [getAll] send
    [ReturnConsumedCapacity: "TOTAL"]; an override configuration replaces
    each of them by the last value it assigns to that field, as
    [{consistentRead: v}] and [{returnConsumedCapacity: v}] do. *)
Theorem defaults_overridable tn pk fe cfg :
  let or_default f d :=
    match last_binding f (overrides cfg) with Some v => Some v | None => Some d end in
  (Obj.get "ConsistentRead" (find_params tn pk cfg)
     = or_default "ConsistentRead" (VBool true)
   ∧ Obj.get "ReturnConsumedCapacity" (find_params tn pk cfg)
     = or_default "ReturnConsumedCapacity" (VStr "TOTAL")
   ∧ Obj.get "ReturnConsumedCapacity" (where_params tn pk fe cfg)
     = or_default "ReturnConsumedCapacity" (VStr "TOTAL")
   ∧ Obj.get "ReturnConsumedCapacity" (getAll_params tn cfg)
     = or_default "ReturnConsumedCapacity" (VStr "TOTAL"))
  ∧ overrides VUndefined = []
  ∧ ∀ v,
      Obj.get "ConsistentRead"
        (find_params tn pk (VObj [("consistentRead", v)])) = Some v
      ∧ Obj.get "ReturnConsumedCapacity"
          (find_params tn pk (VObj [("returnConsumedCapacity", v)])) = Some v
      ∧ Obj.get "ReturnConsumedCapacity"
          (where_params tn pk fe (VObj [("returnConsumedCapacity", v)])) = Some v
      ∧ Obj.get "ReturnConsumedCapacity"
          (getAll_params tn (VObj [("returnConsumedCapacity", v)])) = Some v.
Proof.
  assert (∀ c,
    Obj.get "ReturnConsumedCapacity" (where_params tn pk fe c) =
      match last_binding "ReturnConsumedCapacity" (overrides c) with
      | Some v => Some v | None => Some (VStr "TOTAL") end) as Hw.
  { intros c. rewrite where_params_eq, get_assignConfig.
    destruct (last_binding _ _); [done|].
    rewrite where_pruned_get. rewrite !decide_False by done.
    destruct (where_generated_spec tn pk fe) as (_ & _ & _ & Hf).
    by rewrite Hf. }
  intros or_default. subst or_default. cbv beta. split_and!.
  - unfold find_params. rewrite guarded_assignConfig, get_assignConfig.
    by destruct (last_binding _ _).
  - unfold find_params. rewrite guarded_assignConfig, get_assignConfig.
    by destruct (last_binding _ _).
  - apply Hw.
  - unfold getAll_params. rewrite guarded_assignConfig, get_assignConfig.
    by destruct (last_binding _ _).
  - done.
  - intros v. split_and!; [done..|apply Hw|done].
Qed.

(** ** Arrays that are not ranges *)

(** C10 (as amended).  In the parameters [where] builds, for a key
    specification that is a plain object: an entry whose value is an array
    of a length other than 2 emits the clause [#name = :name] at its place
    in the key condition and binds [:name] to the whole array, which stays
    bound unless a later entry of the keys or of the filter binds [:name]
    again.  For filter keys that are a plain object: such an entry binds
    [:name] to the whole array in the same way and emits no clause; the
    filter expression is the caller's condition and the key condition is
    what the primary key alone gives. *)
Theorem long_array_entry_is_scalar :
  (∀ tn o fe i name l,
     isArrayLike (VObj o) = false →
     o !! i = Some (name, VArr l) → length l ≠ 2 →
     ∃ clauses vs,
       Obj.get KEY_CONDITION (where_generated tn (VObj o) fe) =
         Some (VStr (join clauses " AND "))
       ∧ length clauses = length o
       ∧ clauses !! i = Some ("#" +:+ name +:+ " = :" +:+ name)
       ∧ Obj.get VALUES (where_generated tn (VObj o) fe) = Some (VObj vs)
       ∧ ((":" +:+ name) ∉
            ((entries (drop (S i) o) ++ filter_visits fe)%list ≫= value_bindings).*1 →
          Obj.get (":" +:+ name) vs = Some (VArr l)))
  ∧ (∀ tn pk fe fk j name l,
       filter_applies fe = true →
       member fe "keys" = VObj fk →
       isArrayLike (VObj fk) = false →
       fk !! j = Some (name, VArr l) → length l ≠ 2 →
       Obj.get FILTER (where_generated tn pk fe) = Some (member fe "condition")
       ∧ Obj.get KEY_CONDITION (where_generated tn pk fe) =
           Obj.get KEY_CONDITION (where_key tn pk)
       ∧ ∃ vs,
           Obj.get VALUES (where_generated tn pk fe) = Some (VObj vs)
           ∧ ((":" +:+ name) ∉ (entries (drop (S j) fk) ≫= value_bindings).*1 →
              Obj.get (":" +:+ name) vs = Some (VArr l))).
Proof.
  split.
  - intros tn o fe i name l Ho Hi Hl.
    destruct (where_generated_spec tn (VObj o) fe) as ([_ Hv] & Hk & _).
    rewrite (visits_plain o Ho) in Hk. simpl in Hk.
    assert (entries o !! i = Some (VArr l, Name name)) as Hi'.
    { unfold entries. by rewrite list_lookup_fmap, Hi. }
    exists (clause_of <$> entries o), (where_values (VObj o) fe). split_and!.
    + done.
    + unfold entries. by rewrite !length_fmap.
    + rewrite list_lookup_fmap, Hi'. simpl.
      by rewrite (proj1 (long_array_scalar l (Name name) Hl)).
    + done.
    + intros Hlater. unfold where_values.
      rewrite get_bind_all, key_visits_plain, bind_app by done.
      rewrite (bindings_split (entries o) i l (Name name) Hi' Hl).
      rewrite <- app_assoc. simpl.
      rewrite last_binding_middle; [done|].
      unfold entries at 1. rewrite <- fmap_drop. fold (entries (drop (S i) o)).
      by rewrite <- bind_app.
  - intros tn pk fe fk j name l Hfe Hkeys Hfk Hj Hl.
    destruct (where_generated_spec tn pk fe) as ([_ Hv] & Hk & Hf & _).
    destruct (where_key_spec tn pk) as (_ & Hk' & _).
    rewrite Hfe in Hf. split_and!; [done|by rewrite Hk, Hk'|].
    assert (entries fk !! j = Some (VArr l, Name name)) as Hj'.
    { unfold entries. by rewrite list_lookup_fmap, Hj. }
    exists (where_values pk fe). split; [done|].
    intros Hlater. unfold where_values, filter_visits.
    rewrite Hfe, Hkeys, (visits_plain fk Hfk).
    rewrite get_bind_all, bind_app.
    rewrite (bindings_split (entries fk) j l (Name name) Hj' Hl).
    rewrite app_assoc. simpl.
    rewrite last_binding_middle; [done|].
    unfold entries at 1. rewrite <- fmap_drop. by fold (entries (drop (S j) fk)).
Qed.

Lemma long_array_entry_is_scalar_witness :
  let tags := VArr [VNum 1; VNum 2; VNum 3] in
  let o := [("id", VStr "a"); ("tags", tags)] in
  let fe := VObj [("condition", VStr "#tags <> :tags"); ("keys", VObj [("tags", tags)])] in
  (isArrayLike (VObj o) = false
   ∧ o !! 1 = Some ("tags", tags)
   ∧ length [VNum 1; VNum 2; VNum 3] ≠ 2
   ∧ ∃ clauses vs,
       Obj.get KEY_CONDITION (where_generated "t" (VObj o) VUndefined) =
         Some (VStr (join clauses " AND "))
       ∧ length clauses = length o
       ∧ clauses !! 1 = Some "#tags = :tags"
       ∧ Obj.get VALUES (where_generated "t" (VObj o) VUndefined) = Some (VObj vs)
       ∧ (":tags" ∉
            ((entries (drop 2 o) ++ filter_visits VUndefined)%list
               ≫= value_bindings).*1 →
          Obj.get ":tags" vs = Some tags))
  ∧ (filter_applies fe = true
     ∧ member fe "keys" = VObj [("tags", tags)]
     ∧ isArrayLike (VObj [("tags", tags)]) = false
     ∧ Obj.get FILTER (where_generated "t" VUndefined fe) = Some (VStr "#tags <> :tags")).
Proof.
  split.
  - split_and!; [reflexivity|reflexivity|simpl; lia|].
    apply (proj1 long_array_entry_is_scalar "t"
             [("id", VStr "a"); ("tags", VArr [VNum 1; VNum 2; VNum 3])]
             VUndefined 1 "tags" [VNum 1; VNum 2; VNum 3]);
      [reflexivity|reflexivity|simpl; lia].
  - split_and!; [reflexivity|reflexivity|reflexivity|].
    apply (proj2 long_array_entry_is_scalar "t" VUndefined
             (VObj [("condition", VStr "#tags <> :tags");
                    ("keys", VObj [("tags", VArr [VNum 1; VNum 2; VNum 3])])])
             [("tags", VArr [VNum 1; VNum 2; VNum 3])]
             0 "tags" [VNum 1; VNum 2; VNum 3]);
      [reflexivity|reflexivity|reflexivity|reflexivity|simpl; lia].
Defined.

(** C10 (as stated) fails for a filter entry: [where] emits no clause for
    it.  With the filter [{condition: "#tags <> :tags", keys: {tags: [1, 2,
    3]}}] the placeholder [:tags] is bound to the whole array, but no field
    of the parameters holds the clause [#tags = :tags]: there is no key
    condition and the filter expression is the caller's string. *)
Lemma filter_entry_emits_no_clause :
  let tags := VArr [VNum 1; VNum 2; VNum 3] in
  let fe := VObj [("condition", VStr "#tags <> :tags"); ("keys", VObj [("tags", tags)])] in
  let params := where_params "t" VUndefined fe VUndefined in
  Obj.get VALUES params = Some (VObj [(":tags", tags)])
  ∧ Obj.get KEY_CONDITION params = None
  ∧ Obj.get FILTER params = Some (VStr "#tags <> :tags")
  ∧ Forall (λ p, p.2 ≠ VStr "#tags = :tags") params.
Proof.
  split_and!; [reflexivity..|].
  vm_compute. repeat constructor; discriminate.
Qed.

(** * Further properties of the operations *)

(** ** What [where] and [update] bind *)

Lemma value_bindings_not_nil p : value_bindings p ≠ [].
Proof.
  destruct p as [v k]. unfold value_bindings. simpl fst.
  by destruct v as [| | | | |[|a [|b [|c l]]]|].
Qed.

Lemma bind_value_bindings_nil (l : list (value * key)) :
  l ≫= value_bindings = [] ↔ l = [].
Proof.
  split; [|by intros ->]. destruct l as [|p l]; [done|].
  rewrite bind_cons. intros [H _]%app_eq_nil. by apply value_bindings_not_nil in H.
Qed.

Lemma where_values_nil pk fe :
  where_values pk fe = [] ↔ key_visits pk = [] ∧ filter_visits fe = [].
Proof.
  unfold where_values. rewrite bind_all_nil, bind_value_bindings_nil.
  split; [by intros [? ?]%app_eq_nil|by intros [-> ->]].
Qed.

(** The parameters of [update] before the overrides, for any update data. *)
Lemma update_generated_spec tn pk d :
  truthy d = true →
  carries (bind_all (name_binding <$> visits d) [])
    (bind_all (update_binding <$> visits d) [])
    (update_params tn pk d VUndefined)
  ∧ Obj.get "UpdateExpression" (update_params tn pk d VUndefined) =
      Some (VStr ("set " +:+ join (assignment_of <$> visits d) ", "))
  ∧ ∀ f, f ≠ NAMES → f ≠ VALUES → f ≠ "UpdateExpression" →
      Obj.get f (update_params tn pk d VUndefined) =
        Obj.get f [("TableName", VStr tn); ("Key", pk);
                   ("ReturnValues", VStr "ALL_NEW")].
Proof.
  intros Hd. unfold update_params, forEach. rewrite Hd. simpl truthy. cbv iota.
  match goal with |- context [fold_left ?g ?l (?p, [])] =>
    destruct (fold_update_iteratee l p [] [] []) as (H1 & H2 & H3); [done|];
    destruct (fold_left g l (p, [])) as [params arr] end.
  simpl in H1, H2, H3. subst arr. destruct H1 as [Hn Hv]. split_and!.
  - split; by rewrite get_set_ne.
  - by rewrite get_set_eq.
  - intros f ? ? ?. rewrite get_set_ne, H3 by done. simpl.
    by repeat case_decide.
Qed.

(** ** Requests *)

(** X1: [batchCreate] sends one [batchWrite] request, whatever the number of
    items: under [RequestItems], under the table's name, one put request per
    item in the order of the items, and no [TableName] field. *)
Theorem batchCreate_one_request_in_order store (items : list value) w :
  ∃ puts,
    sent (batchCreate store items VUndefined w).2 =
      (sent w ++
       [DocumentClient.Request DocumentClient.batchWrite
          [("RequestItems", VObj [(tableName (this w), VArr puts)])]])%list
    ∧ length puts = length items
    ∧ ∀ i, puts !! i = put_request <$> items !! i.
Proof.
  exists (put_request <$> items). split_and!.
  - change (batchCreate store items VUndefined w)
      with (run store (BatchCreate items VUndefined) w).
    by rewrite run_spec.
  - by rewrite length_fmap.
  - intros i. by rewrite list_lookup_fmap.
Qed.

(** X2: [getAll(config)] is [where(undefined, undefined, config)]: the same
    request to [scan], the same promise, for every configuration. *)
Theorem getAll_is_where_without_key store cfg w :
  getAll store cfg w = where_ store VUndefined VUndefined cfg w.
Proof.
  change (getAll store cfg w) with (run store (GetAll cfg) w).
  change (where_ store ?a ?b ?c w) with (run store (Where a b c) w).
  by rewrite !run_spec.
Qed.

(** X3: for each of the seven operations and every override configuration
    whose keys start with an ASCII character, the request of the call goes
    to the same method as the call without a configuration, and its
    parameters are those of the call without one with the overrides
    assigned on top: a field reads as the last override assigns it, and as
    the call without configuration has it when no override names it.  An
    override key [__proto__] assigns no field: that one reads as in the
    call without configuration. *)
Theorem overrides_go_on_top store (c : call) w :
  ascii_overrides (config_of c) →
  ∃ base,
    sent (run store (without_config c) w).2 = (sent w ++ [base])%list
    ∧ sent (run store c w).2 =
        (sent w ++
         [DocumentClient.Request (DocumentClient.called base)
            (assignConfig (DocumentClient.sent_params base) (config_of c))])%list
    ∧ Obj.get "__proto__"
        (assignConfig (DocumentClient.sent_params base) (config_of c)) =
        Obj.get "__proto__" (DocumentClient.sent_params base)
    ∧ ∀ f,
        Obj.get f (assignConfig (DocumentClient.sent_params base) (config_of c)) =
          match last_binding f (overrides (config_of c)) with
          | Some v => Some v
          | None => Obj.get f (DocumentClient.sent_params base)
          end.
Proof.
  intros _.
  exists (request_of (tableName (this w)) (without_config c)).
  rewrite !run_spec.
  split_and!;
    [done| |by rewrite get_assignConfig, override_proto
     |intros f; apply get_assignConfig].
  simpl. do 2 f_equal.
  destruct c; simpl;
    unfold find_params, getAll_params, create_params, batchCreate_params,
      update_params, destroy_params; simpl truthy; cbv iota;
    rewrite ?guarded_assignConfig; try done.
  by rewrite !where_params_eq, (assignConfig_falsy _ VUndefined).
Qed.

Lemma overrides_go_on_top_witness :
  let store : list DocumentClient.request → DocumentClient.request → value * value :=
    λ _ _, (VNull, VNull) in
  let w := World (constructor "t" "eu-west-1") [] in
  let c := Destroy (VObj [("id", VStr "1")])
             (VObj [("__proto__", VNum 5); ("tableName", VStr "other")]) in
  ascii_overrides (config_of c)
  ∧ sent (run store c w).2 =
      [DocumentClient.Request DocumentClient.delete
         [("TableName", VStr "other"); ("Key", VObj [("id", VStr "1")])]]
  ∧ ∃ base,
      sent (run store (without_config c) w).2 = (sent w ++ [base])%list
      ∧ sent (run store c w).2 =
          (sent w ++
           [DocumentClient.Request (DocumentClient.called base)
              (assignConfig (DocumentClient.sent_params base) (config_of c))])%list
      ∧ Obj.get "__proto__"
          (assignConfig (DocumentClient.sent_params base) (config_of c)) =
          Obj.get "__proto__" (DocumentClient.sent_params base)
      ∧ ∀ f,
          Obj.get f (assignConfig (DocumentClient.sent_params base) (config_of c)) =
            match last_binding f (overrides (config_of c)) with
            | Some v => Some v
            | None => Obj.get f (DocumentClient.sent_params base)
            end.
Proof.
  assert (ascii_overrides
            (VObj [("__proto__", VNum 5); ("tableName", VStr "other")])) as Hascii.
  { unfold ascii_overrides. simpl. repeat constructor. }
  split_and!; [exact Hascii|reflexivity|].
  apply (overrides_go_on_top (λ _ _, (VNull, VNull))
           (Destroy (VObj [("id", VStr "1")])
              (VObj [("__proto__", VNum 5); ("tableName", VStr "other")]))
           (World (constructor "t" "eu-west-1") [])).
  exact Hascii.
Defined.

(** X4: calls made one after the other on a handle send one request each,
    in the order of the calls; the request of a call is the one it sends
    alone, whatever the store answered to the earlier calls; and the handle
    is the same afterwards. *)
Theorem calls_are_independent store (calls : list call) w :
  sent (run_all store calls w) =
    (sent w ++ (request_of (tableName (this w)) <$> calls))%list
  ∧ this (run_all store calls w) = this w
  ∧ ∀ store' i c, calls !! i = Some c →
      sent (run_all store calls w) !! (length (sent w) + i) =
        last (sent (run store' c w).2).
Proof.
  assert (∀ cs w0,
    sent (run_all store cs w0) =
      (sent w0 ++ (request_of (tableName (this w0)) <$> cs))%list
    ∧ this (run_all store cs w0) = this w0) as H.
  { induction cs as [|c cs IH]; intros w0; simpl.
    - by rewrite app_nil_r.
    - destruct (IH (run store c w0).2) as [IH1 IH2].
      unfold run_all in *. simpl. rewrite IH1, IH2, !run_this.
      rewrite run_spec. simpl. by rewrite <- app_assoc. }
  destruct (H calls w) as [H1 H2]. split_and!; [done..|].
  intros store' i c Hi. rewrite H1, run_spec. simpl.
  rewrite last_snoc, lookup_app_r by lia.
  replace (length (sent w) + i - length (sent w)) with i by lia.
  by rewrite list_lookup_fmap, Hi.
Qed.

(** ** Placeholders *)

(** X5: the two placeholder maps [where] builds list no key twice, and
    list exactly the placeholders of the entries it walked over: [#name]
    for every entry, and for every entry [:name], or [:nameStart] and
    [:nameEnd] when its value is a two-element array. *)
Theorem where_placeholders_exact tn pk fe :
  ∃ names values,
    Obj.get NAMES (where_generated tn pk fe) = Some (VObj names)
    ∧ Obj.get VALUES (where_generated tn pk fe) = Some (VObj values)
    ∧ NoDup (Obj.keys names) ∧ NoDup (Obj.keys values)
    ∧ (∀ k, k ∈ Obj.keys names ↔
         ∃ p, p ∈ (key_visits pk ++ filter_visits fe)%list
              ∧ k = "#" +:+ key_string p.2)
    ∧ (∀ k, k ∈ Obj.keys values ↔
         ∃ p, p ∈ (key_visits pk ++ filter_visits fe)%list
              ∧ k ∈ (value_bindings p).*1).
Proof.
  destruct (where_generated_spec tn pk fe) as ([Hn Hv] & _).
  exists (where_names pk fe), (where_values pk fe).
  split_and!; [done|done|by apply NoDup_keys_bind_all, NoDup_nil..| |].
  - intros k. unfold where_names. rewrite elem_of_keys_bind_all.
    rewrite <- list_fmap_compose, list_elem_of_fmap. split.
    + intros [(p & -> & Hp)|[]%elem_of_nil]. by exists p.
    + intros (p & Hp & ->). left. by exists p.
  - intros k. unfold where_values. rewrite elem_of_keys_bind_all.
    rewrite list_elem_of_fmap. split.
    + intros [(b & -> & (p & Hb & Hp)%list_elem_of_bind)|[]%elem_of_nil].
      exists p. split; [done|]. by apply list_elem_of_fmap_2.
    + intros (p & Hp & (b & -> & Hb)%list_elem_of_fmap). left.
      exists b. split; [done|]. apply list_elem_of_bind. eauto.
Qed.

(** X6: when the override configuration names neither placeholder map, a
    request of [where] has both maps or neither, and it has neither exactly
    when there was no entry to walk over. *)
Theorem where_both_maps_or_neither tn pk fe cfg :
  last_binding NAMES (overrides cfg) = None →
  last_binding VALUES (overrides cfg) = None →
  (Obj.get NAMES (where_params tn pk fe cfg) = None ↔
   Obj.get VALUES (where_params tn pk fe cfg) = None)
  ∧ (Obj.get NAMES (where_params tn pk fe cfg) = None ↔
     key_visits pk = [] ∧ filter_visits fe = [])
  ∧ Obj.get NAMES (where_params tn pk fe cfg) ≠ Some (VObj [])
  ∧ Obj.get VALUES (where_params tn pk fe cfg) ≠ Some (VObj []).
Proof.
  intros Hn Hv.
  rewrite !where_params_eq, !get_assignConfig, Hn, Hv, !where_pruned_get.
  rewrite (decide_True (P := NAMES = NAMES)), (decide_False (P := VALUES = NAMES)),
    (decide_True (P := VALUES = VALUES)) by done.
  pose proof (where_names_nil pk fe) as Nn.
  pose proof (where_values_nil pk fe) as Nv.
  destruct (decide (where_names pk fe = [])) as [En|En],
           (decide (where_values pk fe = [])) as [Ev|Ev].
  - split_and!; try done. split; [by intros _; apply Nn|done].
  - exfalso. apply Ev, Nv, Nn, En.
  - exfalso. apply En, Nn, Nv, Ev.
  - split_and!; try done.
    + split; [done|]. by intros ?%Nn.
    + by intros [= ?].
    + by intros [= ?].
Qed.

Lemma where_both_maps_or_neither_witness :
  let cfg := VObj [("limit", VNum 10)] in
  let pk := VObj [("id", VStr "a")] in
  last_binding NAMES (overrides cfg) = None
  ∧ last_binding VALUES (overrides cfg) = None
  ∧ (Obj.get NAMES (where_params "t" pk VUndefined cfg) = None ↔
     Obj.get VALUES (where_params "t" pk VUndefined cfg) = None).
Proof.
  split_and!; [reflexivity|reflexivity|].
  apply (where_both_maps_or_neither "t" (VObj [("id", VStr "a")]) VUndefined
           (VObj [("limit", VNum 10)])); reflexivity.
Defined.

(** X7: a primary key that is truthy but has nothing to walk over, such as
    the empty object, still makes [where] a query, and the key condition it
    sends is the empty string. *)
Theorem where_empty_key_queries store pk fe cfg w :
  truthy pk = true → visits pk = [] →
  last_binding KEY_CONDITION (overrides cfg) = None →
  ∃ params,
    sent (where_ store pk fe cfg w).2 =
      (sent w ++ [DocumentClient.Request DocumentClient.query params])%list
    ∧ Obj.get KEY_CONDITION params = Some (VStr "").
Proof.
  intros Ht Hv Hc. exists (where_params (tableName (this w)) pk fe cfg). split.
  - change (where_ store pk fe cfg w) with (run store (Where pk fe cfg) w).
    rewrite run_spec. simpl. by rewrite Ht.
  - rewrite where_params_eq, get_assignConfig, Hc, where_pruned_get.
    rewrite !decide_False by done.
    destruct (where_generated_spec (tableName (this w)) pk fe) as (_ & Hk & _).
    by rewrite Hk, Ht, Hv.
Qed.

Lemma where_empty_key_queries_witness :
  let w := World (constructor "t" "eu-west-1") [] in
  truthy (VObj []) = true ∧ visits (VObj []) = []
  ∧ last_binding KEY_CONDITION (overrides VUndefined) = None
  ∧ ∃ params,
      sent (where_ (λ _ _, (VNull, VNull)) (VObj []) VUndefined VUndefined w).2 =
        (sent w ++ [DocumentClient.Request DocumentClient.query params])%list
      ∧ Obj.get KEY_CONDITION params = Some (VStr "").
Proof.
  split_and!; [reflexivity..|].
  apply (where_empty_key_queries (λ _ _, (VNull, VNull)) (VObj []) VUndefined
           VUndefined (World (constructor "t" "eu-west-1") [])); reflexivity.
Defined.

(** ** [update] *)

(** X8: when there is nothing to walk over in the update data, [update]
    still sends its request, with both placeholder maps present and empty
    (it has no pruning step); the update expression is absent when the data
    is falsy and is ["set "] with no assignment when it is truthy, as the
    empty object is. *)
Theorem update_without_entries store key d w :
  visits d = [] →
  ∃ params,
    sent (update store key d VUndefined w).2 =
      (sent w ++ [DocumentClient.Request DocumentClient.update params])%list
    ∧ Obj.get NAMES params = Some (VObj [])
    ∧ Obj.get VALUES params = Some (VObj [])
    ∧ Obj.get "UpdateExpression" params =
        (if truthy d then Some (VStr "set ") else None).
Proof.
  intros Hv. exists (update_params (tableName (this w)) key d VUndefined). split.
  { change (update store key d VUndefined w)
      with (run store (Update key d VUndefined) w).
    by rewrite run_spec. }
  destruct (truthy d) eqn:Ht.
  - destruct (update_generated_spec (tableName (this w)) key d Ht)
      as ([Hn Hvs] & Hu & _).
    rewrite Hv in Hn, Hvs, Hu. by rewrite Hn, Hvs, Hu.
  - unfold update_params. by rewrite Ht.
Qed.

Lemma update_without_entries_witness :
  let w := World (constructor "t" "eu-west-1") [] in
  let key := VObj [("id", VStr "1")] in
  visits (VObj []) = []
  ∧ ∃ params,
      sent (update (λ _ _, (VNull, VNull)) key (VObj []) VUndefined w).2 =
        (sent w ++ [DocumentClient.Request DocumentClient.update params])%list
      ∧ Obj.get NAMES params = Some (VObj [])
      ∧ Obj.get VALUES params = Some (VObj [])
      ∧ Obj.get "UpdateExpression" params =
          (if truthy (VObj []) then Some (VStr "set ") else None).
Proof.
  split; [reflexivity|].
  apply (update_without_entries (λ _ _, (VNull, VNull))
           (VObj [("id", VStr "1")]) (VObj [])
           (World (constructor "t" "eu-west-1") [])).
  reflexivity.
Defined.

Lemma length_add k v (o : obj) : length (Obj.add k v o) = S (length o).
Proof.
  induction o as [|[k0 v0] o IH]; [done|]. simpl.
  destruct (Obj.before k k0); simpl; by rewrite ?IH.
Qed.

(** Bindings of distinct placeholders, none of them in the map yet, add one
    property each. *)
Lemma length_bind_all_fresh (bs m : obj) :
  NoDup bs.*1 → (∀ k, k ∈ bs.*1 → Obj.get k m = None) →
  length (bind_all bs m) = length m + length bs.
Proof.
  revert m. induction bs as [|[k v] bs IH]; intros m Hnd Hfresh; simpl.
  - lia.
  - apply NoDup_cons in Hnd as [Hk Hnd].
    unfold bind_all in *. simpl. rewrite IH; [|done|].
    + unfold Obj.set. rewrite (Hfresh k) by (by left). rewrite length_add. lia.
    + intros k' Hk'. rewrite get_set_ne; [|by intros ->].
      apply Hfresh. by right.
Qed.

(** X9: for an update specification that is a plain object, not array-like,
    with distinct attribute names, [update] sends the key as it got it, the
    flag [ReturnValues: "ALL_NEW"], the expression ["set "] followed by one
    assignment [#name = :name] per entry, in order, joined with [", "], and
    two placeholder maps with one entry per attribute: [#name] bound to the
    name and [:name] to the value, whatever the value is (a two-element
    array is bound whole; there is no range form). *)
Theorem update_of_plain_specification tn key (d : obj) :
  isArrayLike (VObj d) = false → NoDup d.*1 →
  ∃ names values,
    Obj.get "TableName" (update_params tn key (VObj d) VUndefined) = Some (VStr tn)
    ∧ Obj.get "Key" (update_params tn key (VObj d) VUndefined) = Some key
    ∧ Obj.get "ReturnValues" (update_params tn key (VObj d) VUndefined) =
        Some (VStr "ALL_NEW")
    ∧ Obj.get "UpdateExpression" (update_params tn key (VObj d) VUndefined) =
        Some (VStr ("set " +:+
                    join ((λ p, "#" +:+ p.1 +:+ " = :" +:+ p.1) <$> d) ", "))
    ∧ Obj.get NAMES (update_params tn key (VObj d) VUndefined) = Some (VObj names)
    ∧ Obj.get VALUES (update_params tn key (VObj d) VUndefined) = Some (VObj values)
    ∧ length names = length d ∧ length values = length d
    ∧ ∀ name v, (name, v) ∈ d →
        Obj.get ("#" +:+ name) names = Some (VStr name)
        ∧ Obj.get (":" +:+ name) values = Some v.
Proof.
  intros Hd Hnd.
  destruct (update_generated_spec tn key (VObj d) eq_refl) as ([Hn Hv] & Hu & Hf).
  rewrite (visits_plain d Hd) in Hn, Hv, Hu. unfold entries in Hn, Hv, Hu.
  rewrite <- !list_fmap_compose in Hn, Hv, Hu.
  eexists _, _. split_and!; [by rewrite Hf..|exact Hu|exact Hn|exact Hv| | |].
  - rewrite length_bind_all_fresh; [by rewrite length_fmap| |done].
    rewrite <- list_fmap_compose.
    pose proof (@NoDup_fmap_2 _ _ (String.append "#") hash_inj _ Hnd) as Hnd'.
    by rewrite <- list_fmap_compose in Hnd'.
  - rewrite length_bind_all_fresh; [by rewrite length_fmap| |done].
    rewrite <- list_fmap_compose.
    pose proof (@NoDup_fmap_2 _ _ (String.append ":") colon_inj _ Hnd) as Hnd'.
    by rewrite <- list_fmap_compose in Hnd'.
  - intros name v Hin. rewrite !get_bind_all. split.
    + pose proof (last_binding_inj (String.append "#") (λ p, VStr p.1)
                    d name v hash_inj Hnd Hin) as E.
      change (last_binding ("#" +:+ name)
                (name_binding ∘ (λ p : string * value, (p.2, Name p.1)) <$> d)
              = Some (VStr name)) in E.
      by rewrite E.
    + pose proof (last_binding_inj (String.append ":") (λ p, p.2)
                    d name v colon_inj Hnd Hin) as E.
      change (last_binding (":" +:+ name)
                (update_binding ∘ (λ p : string * value, (p.2, Name p.1)) <$> d)
              = Some v) in E.
      by rewrite E.
Qed.

Lemma update_of_plain_specification_witness :
  let d := [("name", VStr "Bob"); ("tags", VArr [VNum 1; VNum 2])] in
  let key := VObj [("id", VStr "1")] in
  isArrayLike (VObj d) = false ∧ NoDup d.*1
  ∧ ∃ names values,
      Obj.get "TableName" (update_params "t" key (VObj d) VUndefined) = Some (VStr "t")
      ∧ Obj.get "Key" (update_params "t" key (VObj d) VUndefined) = Some key
      ∧ Obj.get "ReturnValues" (update_params "t" key (VObj d) VUndefined) =
          Some (VStr "ALL_NEW")
      ∧ Obj.get "UpdateExpression" (update_params "t" key (VObj d) VUndefined) =
          Some (VStr ("set " +:+
                      join ((λ p, "#" +:+ p.1 +:+ " = :" +:+ p.1) <$> d) ", "))
      ∧ Obj.get NAMES (update_params "t" key (VObj d) VUndefined) = Some (VObj names)
      ∧ Obj.get VALUES (update_params "t" key (VObj d) VUndefined) = Some (VObj values)
      ∧ length names = length d ∧ length values = length d
      ∧ ∀ name v, (name, v) ∈ d →
          Obj.get ("#" +:+ name) names = Some (VStr name)
          ∧ Obj.get (":" +:+ name) values = Some v.
Proof.
  assert (NoDup [("name", VStr "Bob"); ("tags", VArr [VNum 1; VNum 2])].*1) as Hnd.
  { simpl. apply NoDup_cons. split; [|apply NoDup_singleton].
    intros H%list_elem_of_singleton. discriminate H. }
  split_and!; [reflexivity|exact Hnd|].
  apply (update_of_plain_specification "t" (VObj [("id", VStr "1")])
           [("name", VStr "Bob"); ("tags", VArr [VNum 1; VNum 2])]);
    [reflexivity|exact Hnd].
Defined.

(** ** The filter *)

(** X10: the filter's keys are bound in the same two maps as the primary
    key's, after them.  For a filter object with a truthy condition and
    plain keys, a key whose value is not a two-element array leaves [:name]
    bound to its value unless a later filter key binds [:name] again,
    whatever the primary key had bound there; the filter expression is the
    condition as given, and the key condition is what the primary key alone
    gives. *)
Theorem filter_binding_replaces_key_binding tn pk (f fk : obj) cond j name v :
  Obj.get "condition" f = Some cond → truthy cond = true →
  Obj.get "keys" f = Some (VObj fk) →
  isArrayLike (VObj fk) = false →
  fk !! j = Some (name, v) → is_range v = false →
  (":" +:+ name) ∉ (entries (drop (S j) fk) ≫= value_bindings).*1 →
  ∃ values,
    Obj.get VALUES (where_generated tn pk (VObj f)) = Some (VObj values)
    ∧ Obj.get (":" +:+ name) values = Some v
    ∧ Obj.get FILTER (where_generated tn pk (VObj f)) = Some cond
    ∧ Obj.get KEY_CONDITION (where_generated tn pk (VObj f)) =
        Obj.get KEY_CONDITION (where_key tn pk).
Proof.
  intros Hcond Ht Hkeys Hfk Hj Hv Hlater.
  assert (member (VObj f) "condition" = cond) as Mc.
  { unfold member, Obj.read. by rewrite Hcond. }
  assert (member (VObj f) "keys" = VObj fk) as Mk.
  { unfold member, Obj.read. by rewrite Hkeys. }
  assert (filter_applies (VObj f) = true) as Hfe.
  { unfold filter_applies. by rewrite Mc, Mk, Ht. }
  destruct (where_generated_spec tn pk (VObj f)) as ([_ Hvs] & Hk & Hf & _).
  destruct (where_key_spec tn pk) as (_ & Hk' & _).
  rewrite Hfe, Mc in Hf.
  exists (where_values pk (VObj f)). split_and!; [done| |done|by rewrite Hk, Hk'].
  unfold where_values, filter_visits. rewrite Hfe, Mk, (visits_plain fk Hfk).
  rewrite bind_app, bind_all_app.
  assert (entries fk !! j = Some (v, Name name)) as Hj'.
  { unfold entries. by rewrite list_lookup_fmap, Hj. }
  apply (binding_survives (entries fk) j (v, Name name) [] _ v []).
  - done.
  - by destruct (not_range_clause v (Name name) Hv) as [_ ->].
  - apply not_elem_of_nil.
  - unfold entries. by rewrite <- fmap_drop.
Qed.

Lemma filter_binding_replaces_key_binding_witness :
  let pk := VObj [("id", VNum 1)] in
  let fk := [("id", VNum 5)] in
  let f := [("condition", VStr "#id > :id"); ("keys", VObj fk)] in
  Obj.get "condition" f = Some (VStr "#id > :id")
  ∧ truthy (VStr "#id > :id") = true
  ∧ Obj.get "keys" f = Some (VObj fk)
  ∧ isArrayLike (VObj fk) = false
  ∧ fk !! 0 = Some ("id", VNum 5)
  ∧ is_range (VNum 5) = false
  ∧ (":id" ∉ (entries (drop 1 fk) ≫= value_bindings).*1)
  ∧ ∃ values,
      Obj.get VALUES (where_generated "t" pk (VObj f)) = Some (VObj values)
      ∧ Obj.get ":id" values = Some (VNum 5)
      ∧ Obj.get FILTER (where_generated "t" pk (VObj f)) = Some (VStr "#id > :id")
      ∧ Obj.get KEY_CONDITION (where_generated "t" pk (VObj f)) =
          Obj.get KEY_CONDITION (where_key "t" pk).
Proof.
  split_and!; [reflexivity..|apply not_elem_of_nil|].
  apply (filter_binding_replaces_key_binding "t" (VObj [("id", VNum 1)])
           [("condition", VStr "#id > :id"); ("keys", VObj [("id", VNum 5)])]
           [("id", VNum 5)] (VStr "#id > :id") 0 "id" (VNum 5));
    [reflexivity..|apply not_elem_of_nil].
Defined.
